(** * A shallow embedding of the reactive component store

    The development follows [src/app/component-store/component-store.ts]
    (class [ComponentStore]) and its older duplicate, class [CustomStore].
    Both classes keep the state twice: one [BehaviorSubject] holding the
    whole snapshot and one [BehaviorSubject] per field, and every mutation
    publishes the snapshot and then reconciles the per-field subjects.

    Layout: - [JS]    values, strict equality, truthiness, ordinary objects;
            - [Rx]    the parts of RxJS the stores call;
            - [Eff]   a state / trace / exception monad for method bodies;
            - [ComponentStore], [CustomStore]  the two classes;
            - callers: mutations, runs and the vocabulary of the properties;
            - facts about objects, the reconciliation loop, the invariant,
              [combineLatest] and the simulation between the two classes;
            - the properties C1 to C10, at the end of the file. *)

From Stdlib Require Import String Ascii List ZArith NArith Bool Lia DecimalString.
Import ListNotations.
Local Open Scope string_scope.
Local Open Scope list_scope.

(* ================================================================== *)
(** ** JavaScript values and ordinary objects *)
(* ================================================================== *)

Module JS.

(** The values a state field can hold.  A number is kept as the integer it
    denotes, together with [VNaN]; the stores only ever compare numbers, and
    [===] does not tell [+0] from [-0].  Everything allocated (arrays,
    records, functions, dates) is a [VRef] and is compared by address.
    Equality of two [value]s is thus "the same primitive or the same
    reference"; it is [===] except on [VNaN], which is one value here but
    differs from itself under [===] (see [strict_eq_same] and
    [strict_eq_refl] below). *)
Inductive value : Type :=
| VUndefined
| VNull
| VBool (b : bool)
| VNum (z : Z)
| VNaN
| VStr (s : string)
| VRef (addr : nat).

(** [v === w]. *)
Definition strict_eq (v w : value) : bool :=
  match v, w with
  | VUndefined, VUndefined => true
  | VNull, VNull => true
  | VBool a, VBool b => Bool.eqb a b
  | VNum a, VNum b => Z.eqb a b
  | VStr a, VStr b => String.eqb a b
  | VRef a, VRef b => Nat.eqb a b
  | _, _ => false
  end.

(** [v !== w]. *)
Definition strict_neq (v w : value) : bool := negb (strict_eq v w).

(** ToBoolean, as used by [if (x)]. *)
Definition truthy (v : value) : bool :=
  match v with
  | VUndefined | VNull | VNaN => false
  | VBool b => b
  | VNum z => negb (Z.eqb z 0)
  | VStr s => negb (String.eqb s EmptyString)
  | VRef _ => true
  end.

(** What a [throw] carries: the engine's own [TypeError] (reading a property
    of [undefined]) or a value thrown by caller code. *)
Inductive error : Type :=
| TypeError
| Thrown (v : value).

(** The outcome of evaluating a call. *)
Inductive completion (A : Type) : Type :=
| Normal (a : A)
| Throw (e : error).
Arguments Normal {A} a.
Arguments Throw {A} e.

(** An ordinary object: its own enumerable properties in the order [for-in]
    and the spread operator visit them. *)
Definition obj (A : Type) : Type := list (string * A).

Definition own_keys {A} (o : obj A) : list string := map fst o.

(** Own-property lookup; [None] is JavaScript's "no such property". *)
Fixpoint obj_find {A} (key : string) (o : obj A) : option A :=
  match o with
  | [] => None
  | (k, a) :: o' => if String.eqb k key then Some a else obj_find key o'
  end.

Definition has_own {A} (key : string) (o : obj A) : bool :=
  match obj_find key o with Some _ => true | None => false end.

(** [o[key]] on a record of values: a missing property reads [undefined]. *)
Definition get_prop (o : obj value) (key : string) : value :=
  match obj_find key o with
  | Some v => v
  | None => VUndefined
  end.

(** A property key is an array index when it is the canonical decimal form
    of an integer below 2^32 - 1; such keys are enumerated first, in
    ascending numeric order, before all other keys. *)
Definition array_index (key : string) : option N :=
  match NilZero.uint_of_string key with
  | Some u =>
      let n := N.of_uint u in
      if String.eqb (NilZero.string_of_uint (N.to_uint n)) key
         && N.ltb n 4294967295
      then Some n else None
  | None => None
  end.

(** Does a new key [key] go in front of the existing key [k]? *)
Definition goes_before (key k : string) : bool :=
  match array_index key with
  | Some n =>
      match array_index k with
      | Some m => N.ltb n m
      | None => true
      end
  | None => false
  end.

(** Overwrite the value of an existing property, keeping its place. *)
Fixpoint obj_replace {A} (key : string) (a : A) (o : obj A) : obj A :=
  match o with
  | [] => []
  | (k, b) :: o' =>
      if String.eqb k key then (k, a) :: o' else (k, b) :: obj_replace key a o'
  end.

(** Add a property that the object does not have yet. *)
Fixpoint obj_add {A} (key : string) (a : A) (o : obj A) : obj A :=
  match o with
  | [] => [(key, a)]
  | (k, b) :: o' =>
      if goes_before key k then (key, a) :: (k, b) :: o'
      else (k, b) :: obj_add key a o'
  end.

(** [o[key] = a] on an extensible object. *)
Definition obj_set {A} (key : string) (a : A) (o : obj A) : obj A :=
  if has_own key o then obj_replace key a o else obj_add key a o.

(** Copy the own properties of [src] onto [target], in [src]'s order. *)
Definition obj_assign {A} (target src : obj A) : obj A :=
  fold_left (fun acc kv => obj_set (fst kv) (snd kv) acc) src target.

(** The object literal [{ ...a, ...b }]. *)
Definition spread2 {A} (a b : obj A) : obj A :=
  obj_assign (obj_assign [] a) b.

(** [Object.freeze] forbids later writes and returns its argument.  Records
    are immutable data here, so freezing is the identity. *)
Definition Object_freeze {A} (o : A) : A := o.

(** The shape every real object has: no key twice, array-index keys first
    and ascending, the other keys after them. *)
Definition in_order (k1 k2 : string) : bool :=
  match array_index k1, array_index k2 with
  | Some n, Some m => N.ltb n m
  | Some _, None => true
  | None, Some _ => false
  | None, None => negb (String.eqb k1 k2)
  end.

Fixpoint keys_wf (ks : list string) : bool :=
  match ks with
  | [] => true
  | k :: ks' => forallb (in_order k) ks' && keys_wf ks'
  end.

Definition obj_wf {A} (o : obj A) : bool := keys_wf (own_keys o).

End JS.

(* ================================================================== *)
(** ** The RxJS primitives the stores rely on *)
(* ================================================================== *)

Module Rx.

(** A [BehaviorSubject]: the value it currently holds and whether
    [complete()] has been called on it. *)
Record BehaviorSubject (A : Type) : Type := mkSubject {
  _value : A;
  isStopped : bool
}.
Arguments mkSubject {A} _ _.
Arguments _value {A} _.
Arguments isStopped {A} _.

(** [new BehaviorSubject(a)]. *)
Definition new_subject {A} (a : A) : BehaviorSubject A := mkSubject a false.

(** [b.getValue()]. *)
Definition getValue {A} (b : BehaviorSubject A) : A := _value b.

(** [b.next(a)]: the value is stored in any case and is delivered to the
    subscribers unless the subject is stopped.  The second component is the
    list of values delivered. *)
Definition next {A} (a : A) (b : BehaviorSubject A) : BehaviorSubject A * list A :=
  (mkSubject a (isStopped b), if isStopped b then [] else [a]).

(** [b.complete()]: the second component tells whether a completion was
    delivered. *)
Definition complete {A} (b : BehaviorSubject A) : BehaviorSubject A * bool :=
  (mkSubject (_value b) true, negb (isStopped b)).

(** [b.asObservable()] exposes the same subject read-only. *)
Definition asObservable {A} (b : BehaviorSubject A) : BehaviorSubject A := b.

(** What a subscriber of a finite stream is sent. *)
Inductive Notification (A : Type) : Type :=
| NextN (a : A)
| CompleteN.
Arguments NextN {A} a.
Arguments CompleteN {A}.

(** A stream given by everything it sends to a subscriber, in order. *)
Definition Observable (A : Type) : Type := list (Notification A).

(** [of(a)] sends [a] on subscription and completes ([of] is a keyword
    here, hence the underscore). *)
Definition of_ {A} (a : A) : Observable A := [NextN a; CompleteN].

(** [EMPTY] completes on subscription without sending a value. *)
Definition EMPTY {A} : Observable A := [CompleteN].

(** The values a stream sends. *)
Fixpoint values_of {A} (o : Observable A) : list A :=
  match o with
  | [] => []
  | NextN a :: o' => a :: values_of o'
  | CompleteN :: o' => values_of o'
  end.

(** A stream derived from input streams: the inputs it subscribes to, and
    what it emits in answer to the history of their deliveries, where a
    delivery [(i, v)] says that the input at position [i] sent [v]. *)
Record Derived (Src A : Type) : Type := mkDerived {
  inputs : list Src;
  emissions : list (nat * JS.value) -> list A
}.
Arguments mkDerived {Src A} _ _.
Arguments inputs {Src A} _.
Arguments emissions {Src A} _.

(** [values[i] = v] on the array of latest values. *)
Fixpoint set_nth {A} (i : nat) (a : A) (l : list A) : list A :=
  match l, i with
  | [], _ => []
  | _ :: l', O => a :: l'
  | b :: l', S i' => b :: set_nth i' a l'
  end.

(** All inputs have sent a value: the array of latest values, unwrapped. *)
Fixpoint all_present {A} (l : list (option A)) : option (list A) :=
  match l with
  | [] => Some []
  | None :: _ => None
  | Some a :: l' =>
      match all_present l' with
      | Some r => Some (a :: r)
      | None => None
      end
  end.

(** One delivery to [combineLatest]: store it at its position and, when no
    position is still waiting for its first value, emit a copy of the
    array. *)
Definition combineLatest_step (latest : list (option JS.value))
  (d : nat * JS.value) : list (option JS.value) * list (list JS.value) :=
  if Nat.ltb (fst d) (length latest) then
    let latest' := set_nth (fst d) (Some (snd d)) latest in
    (latest', match all_present latest' with Some vs => [vs] | None => [] end)
  else (latest, []).

Fixpoint combineLatest_run (latest : list (option JS.value))
  (ds : list (nat * JS.value)) : list (list JS.value) :=
  match ds with
  | [] => []
  | d :: ds' =>
      let (latest', out) := combineLatest_step latest d in
      out ++ combineLatest_run latest' ds'
  end.

(** The array of latest values once the deliveries [ds] have been seen. *)
Definition combineLatest_state (latest : list (option JS.value))
  (ds : list (nat * JS.value)) : list (option JS.value) :=
  fold_left (fun l d => fst (combineLatest_step l d)) ds latest.

(** [combineLatest(selectors)]. *)
Definition combineLatest {Src} (selectors : list Src) : Derived Src (list JS.value) :=
  mkDerived selectors (combineLatest_run (repeat None (length selectors))).

(** [source.pipe(map(f))]. *)
Definition pipe_map {Src A B} (f : A -> B) (d : Derived Src A) : Derived Src B :=
  mkDerived (inputs d) (fun ds => List.map f (emissions d ds)).

End Rx.

(* ================================================================== *)
(** ** Method bodies: state, emitted notifications, exceptions *)
(* ================================================================== *)

Module Eff.
Import JS.

(** The whole state managed by a store. *)
Definition State : Type := obj value.

(** What the subjects of a store deliver to their subscribers, in the order
    of delivery.  Subscribers are observers: one that calls back into the
    store while it is being notified is outside this model. *)
Inductive event : Type :=
| StateNext (s : State)
| FieldNext (key : string) (v : value)
| FieldComplete (key : string)
| StateComplete.

(** A method body run on a store of type [S]: its completion, the store it
    leaves behind (also when it throws: nothing is rolled back) and the
    notifications delivered on the way. *)
Definition M (S A : Type) : Type := S -> completion A * S * list event.

Definition ret {S A} (a : A) : M S A := fun st => (Normal a, st, []).

Definition bind {S A B} (m : M S A) (f : A -> M S B) : M S B :=
  fun st =>
    match m st with
    | (Normal a, st', t) =>
        match f a st' with
        | (r, st'', t') => (r, st'', t ++ t')
        end
    | (Throw e, st', t) => (Throw e, st', t)
    end.

(** A call into caller code, which may throw. *)
Definition call {S A} (c : completion A) : M S A := fun st => (c, st, []).

(** [for (const key in o) body(key)]. *)
Fixpoint for_in {S} (ks : list string) (body : string -> M S unit) : M S unit :=
  match ks with
  | [] => ret tt
  | key :: ks' => bind (body key) (fun _ => for_in ks' body)
  end.

(** An argument that is either a literal or a function of the frozen
    state, told apart by [typeof x === 'function']. *)
Inductive literal_or_fn : Type :=
| Literal (s : State)
| Function (f : State -> completion State).

Definition outcome {S A} (r : completion A * S * list event) : completion A := fst (fst r).
Definition store_of {S A} (r : completion A * S * list event) : S := snd (fst r).
Definition trace {S A} (r : completion A * S * list event) : list event := snd r.

End Eff.

Declare Scope eff_scope.
Delimit Scope eff_scope with eff.
Notation "x <- m ;; k" := (Eff.bind m (fun x => k))
  (at level 61, m at next level, right associativity) : eff_scope.
Notation "m ;;; k" := (Eff.bind m (fun _ => k))
  (at level 61, right associativity) : eff_scope.

(* ================================================================== *)
(** ** class ComponentStore (component-store.ts) *)
(* ================================================================== *)

Module ComponentStore.
Import JS Rx Eff.
Local Open Scope eff_scope.

(** [ReactiveState<State>]: one subject per field. *)
Definition ReactiveState : Type := obj (BehaviorSubject value).

(** Streams handed to [select] by the caller are opaque; they go by name. *)
Definition Stream : Type := nat.

(** The instance fields.  [state$] is [stateSubject$] seen read-only, and
    [destroyRef] is kept as the list of subscriptions registered with it. *)
Record store : Type := mkStore {
  state : ReactiveState;
  stateSubject : BehaviorSubject State;
  destroyRef : list (Observable value)
}.

Definition Method (A : Type) : Type := M store A.

(** *** Reads and writes of [this] *)

(** [this.stateSubject$.getValue()]. *)
Definition stateSubject_getValue : Method State :=
  fun st => (Normal (getValue (stateSubject st)), st, []).

(** [this.stateSubject$.next(s)]. *)
Definition stateSubject_next (s : State) : Method unit :=
  fun st =>
    let (b, sent) := next s (stateSubject st) in
    (Normal tt, mkStore (state st) b (destroyRef st), map StateNext sent).

(** [this.stateSubject$.complete()]. *)
Definition stateSubject_complete : Method unit :=
  fun st =>
    let (b, sent) := complete (stateSubject st) in
    (Normal tt, mkStore (state st) b (destroyRef st),
     if sent then [StateComplete] else []).

(** [this.state[key].getValue()]; [this.state[key]] is [undefined] for a key
    without a subject, and calling a method on it is a [TypeError]. *)
Definition state_getValue (key : string) : Method value :=
  fun st =>
    match obj_find key (state st) with
    | Some b => (Normal (getValue b), st, [])
    | None => (Throw TypeError, st, [])
    end.

(** [this.state[key].next(v)]. *)
Definition state_next (key : string) (v : value) : Method unit :=
  fun st =>
    match obj_find key (state st) with
    | Some b =>
        let (b', sent) := next v b in
        (Normal tt,
         mkStore (obj_replace key b' (state st)) (stateSubject st) (destroyRef st),
         map (FieldNext key) sent)
    | None => (Throw TypeError, st, [])
    end.

(** [this.state[key].complete()]. *)
Definition state_complete (key : string) : Method unit :=
  fun st =>
    match obj_find key (state st) with
    | Some b =>
        let (b', sent) := complete b in
        (Normal tt,
         mkStore (obj_replace key b' (state st)) (stateSubject st) (destroyRef st),
         if sent then [FieldComplete key] else [])
    | None => (Throw TypeError, st, [])
    end.

(** [this.state], for enumerating its keys. *)
Definition this_state : Method ReactiveState :=
  fun st => (Normal (state st), st, []).

(** The field [state$], which is [this.stateSubject$.asObservable()]. *)
Definition state_obs : Method (BehaviorSubject State) :=
  fun st => (Normal (asObservable (stateSubject st)), st, []).

(** *** Private members *)

(** [getPropAsBehaviourSubject(state, key)]. *)
Definition getPropAsBehaviourSubject (state0 : State) (key : string)
  : BehaviorSubject value :=
  new_subject (get_prop state0 key).

(** [get frozenState()]. *)
Definition frozenState : Method State :=
  s <- stateSubject_getValue ;; ret (Object_freeze s).

(** [checkAndUpdateState(stateToBeChecked)]. *)
Definition checkAndUpdateState (stateToBeChecked : State) : Method unit :=
  latestState <- stateSubject_getValue ;;
  for_in (own_keys stateToBeChecked) (fun key =>
    let valueOfLatestState := get_prop latestState key in
    valueOfOutdatedState <- state_getValue key ;;
    if strict_neq valueOfLatestState valueOfOutdatedState
    then state_next key valueOfLatestState
    else ret tt).

(** *** Construction and teardown *)

(** [constructor(state)]. *)
Definition constructor (state0 : State) : store :=
  mkStore
    (Object_freeze
       (fold_left
          (fun this_state key =>
             obj_set key (getPropAsBehaviourSubject state0 key) this_state)
          (own_keys state0) []))
    (new_subject state0)
    [].

(** [ngOnDestroy()]. *)
Definition ngOnDestroy : Method unit :=
  table <- this_state ;;
  for_in (own_keys table) state_complete ;;;
  stateSubject_complete.

(** *** Mutation primitives *)

(** [updater(updaterFn)], applied to a payload. *)
Definition updater {Payload : Type}
  (updaterFn : State -> Payload -> completion State) (payload : Payload)
  : Method unit :=
  frozen <- frozenState ;;
  updatedState <- call (updaterFn frozen payload) ;;
  stateSubject_next updatedState ;;;
  checkAndUpdateState updatedState.

(** [setState(stateOrSetFn)]. *)
Definition setState (stateOrSetFn : literal_or_fn) : Method unit :=
  updatedState <-
    match stateOrSetFn with
    | Function setFn => (frozen <- frozenState ;; call (setFn frozen))
    | Literal s => ret s
    end ;;
  stateSubject_next updatedState ;;;
  checkAndUpdateState updatedState.

(** [patchState(partialStateOrPatchFn)]. *)
Definition patchState (partialStateOrPatchFn : literal_or_fn) : Method unit :=
  frozen <- frozenState ;;
  partiallyUpdatedState <-
    match partialStateOrPatchFn with
    | Function patchFn => call (patchFn frozen)
    | Literal p => ret p
    end ;;
  stateSubject_next (spread2 frozen partiallyUpdatedState) ;;;
  checkAndUpdateState partiallyUpdatedState.

(** *** Reading *)

(** [get(getFn?)]. *)
Definition get {Output : Type} (getFn : option (State -> completion Output))
  : Method (State + Output) :=
  latestState <- frozenState ;;
  match getFn with
  | Some f => (r <- call (f latestState) ;; ret (inr r))
  | None => ret (inl latestState)
  end.

(** The three call shapes of [select], as its overloads fix them: one
    function of the Field Cell table; streams followed by one combining
    function; one record of streams. *)
Inductive Config : Type :=
| SelectFn (selectFn : ReactiveState -> option (BehaviorSubject value))
| SelectorsWithSelectFn (selectors : list Stream) (selectFn : list value -> value)
| SelectorsObject (selectorsObject : obj Stream).

Inductive Selected : Type :=
| OfField (o : BehaviorSubject value)
| OfCombiner (o : Derived Stream value)
| OfViewModel (o : Derived Stream (obj value)).

(** [keys[index]]; past the end of the array the read is [undefined], which
    as a computed property name is the string "undefined". *)
Definition key_at (keys : list string) (index : nat) : string :=
  nth index keys "undefined".

(** [values.reduce((vm, value, index) => ({...vm, [keys[index]]: value}), {})]. *)
Definition to_view_model (keys : list string) (values : list value) : obj value :=
  fold_left
    (fun vm iv => obj_set (key_at keys (fst iv)) (snd iv) (obj_assign [] vm))
    (combine (seq 0 (length values)) values)
    [].

(** [select(selectorsObject)], the last branch of [select]. *)
Definition select_record (selectorsObject : obj Stream) : Derived Stream (obj value) :=
  let keys := own_keys selectorsObject in
  let selectors := map snd selectorsObject in
  pipe_map (to_view_model keys) (combineLatest selectors).

(** [select(...config)]. *)
Definition select (config : Config) : Method Selected :=
  match config with
  | SelectFn firstOption =>
      table <- this_state ;;
      match firstOption table with
      | Some b => ret (OfField (asObservable b))
      | None => call (Throw TypeError)
      end
  | SelectorsWithSelectFn selectors selectFn =>
      ret (OfCombiner (pipe_map selectFn (combineLatest selectors)))
  | SelectorsObject selectorsObject =>
      ret (OfViewModel (select_record selectorsObject))
  end.

(** *** Effects *)

(** The argument of the callable returned by [effect]; leaving it out is
    passing [undefined]. *)
Inductive static_or_source : Type :=
| Static (v : value)
| Source (s : Observable value).

Definition omitted : static_or_source := Static VUndefined.

(** The [source$] chosen by the callable. *)
Definition effect_source (staticValueOrSource : static_or_source) : Observable value :=
  match staticValueOrSource with
  | Source s => s
  | Static v => if truthy v then of_ v else EMPTY
  end.

(** [o.pipe(takeUntilDestroyed(this.destroyRef)).subscribe()]. *)
Definition subscribe_until_destroyed (o : Observable value) : Method unit :=
  fun st => (Normal tt, mkStore (state st) (stateSubject st) (destroyRef st ++ [o]), []).

(** [effect(effectFn)], applied to its argument. *)
Definition effect (effectFn : Observable value -> Observable value)
  (staticValueOrSource : static_or_source) : Method unit :=
  subscribe_until_destroyed (effectFn (effect_source staticValueOrSource)).

End ComponentStore.

(* ================================================================== *)
(** ** class CustomStore (the earlier copy of the store) *)
(* ================================================================== *)

Module CustomStore.
Import JS Rx Eff.
Local Open Scope eff_scope.

Definition ReactiveState : Type := obj (BehaviorSubject value).

(** The instance fields; this class has no [destroyRef]. *)
Record store : Type := mkStore {
  state : ReactiveState;
  stateSubject : BehaviorSubject State
}.

Definition Method (A : Type) : Type := M store A.

Definition stateSubject_getValue : Method State :=
  fun st => (Normal (getValue (stateSubject st)), st, []).

Definition stateSubject_next (s : State) : Method unit :=
  fun st =>
    let (b, sent) := next s (stateSubject st) in
    (Normal tt, mkStore (state st) b, map StateNext sent).

Definition stateSubject_complete : Method unit :=
  fun st =>
    let (b, sent) := complete (stateSubject st) in
    (Normal tt, mkStore (state st) b, if sent then [StateComplete] else []).

Definition state_getValue (key : string) : Method value :=
  fun st =>
    match obj_find key (state st) with
    | Some b => (Normal (getValue b), st, [])
    | None => (Throw TypeError, st, [])
    end.

Definition state_next (key : string) (v : value) : Method unit :=
  fun st =>
    match obj_find key (state st) with
    | Some b =>
        let (b', sent) := next v b in
        (Normal tt, mkStore (obj_replace key b' (state st)) (stateSubject st),
         map (FieldNext key) sent)
    | None => (Throw TypeError, st, [])
    end.

Definition state_complete (key : string) : Method unit :=
  fun st =>
    match obj_find key (state st) with
    | Some b =>
        let (b', sent) := complete b in
        (Normal tt, mkStore (obj_replace key b' (state st)) (stateSubject st),
         if sent then [FieldComplete key] else [])
    | None => (Throw TypeError, st, [])
    end.

Definition this_state : Method ReactiveState :=
  fun st => (Normal (state st), st, []).

Definition state_obs : Method (BehaviorSubject State) :=
  fun st => (Normal (asObservable (stateSubject st)), st, []).

(** [getPropAsBehaviourSubject(state, key)]. *)
Definition getPropAsBehaviourSubject (state0 : State) (key : string)
  : BehaviorSubject value :=
  new_subject (get_prop state0 key).

(** [get frozenState()]. *)
Definition frozenState : Method State :=
  s <- stateSubject_getValue ;; ret (Object_freeze s).

(** [checkAndUpdateState(stateToBeChecked)]. *)
Definition checkAndUpdateState (stateToBeChecked : State) : Method unit :=
  latestState <- stateSubject_getValue ;;
  for_in (own_keys stateToBeChecked) (fun key =>
    let valueOfLatestState := get_prop latestState key in
    valueOfOutdatedState <- state_getValue key ;;
    if strict_neq valueOfLatestState valueOfOutdatedState
    then state_next key valueOfLatestState
    else ret tt).

(** [constructor(state)]. *)
Definition constructor (state0 : State) : store :=
  mkStore
    (Object_freeze
       (fold_left
          (fun this_state key =>
             obj_set key (getPropAsBehaviourSubject state0 key) this_state)
          (own_keys state0) []))
    (new_subject state0).

(** [ngOnDestroy()]. *)
Definition ngOnDestroy : Method unit :=
  table <- this_state ;;
  for_in (own_keys table) state_complete ;;;
  stateSubject_complete.

(** [updater(updaterFn)], applied to a payload. *)
Definition updater {Payload : Type}
  (updaterFn : State -> Payload -> completion State) (payload : Payload)
  : Method unit :=
  frozen <- frozenState ;;
  updatedState <- call (updaterFn frozen payload) ;;
  stateSubject_next updatedState ;;;
  checkAndUpdateState updatedState.

(** [select(selectFn)]: this class has the single-function shape only. *)
Definition select (selectFn : ReactiveState -> option (BehaviorSubject value))
  : Method (BehaviorSubject value) :=
  table <- this_state ;;
  match selectFn table with
  | Some b => ret (asObservable b)
  | None => call (Throw TypeError)
  end.

(** [setState(stateOrSetFn)]. *)
Definition setState (stateOrSetFn : literal_or_fn) : Method unit :=
  updatedState <-
    match stateOrSetFn with
    | Function setFn => (frozen <- frozenState ;; call (setFn frozen))
    | Literal s => ret s
    end ;;
  stateSubject_next updatedState ;;;
  checkAndUpdateState updatedState.

(** [patchState(partialStateOrPatchFn)]. *)
Definition patchState (partialStateOrPatchFn : literal_or_fn)
  : Method unit :=
  frozen <- frozenState ;;
  partiallyUpdatedState <-
    match partialStateOrPatchFn with
    | Function patchFn => call (patchFn frozen)
    | Literal p => ret p
    end ;;
  stateSubject_next (spread2 frozen partiallyUpdatedState) ;;;
  checkAndUpdateState partiallyUpdatedState.

End CustomStore.

(* ================================================================== *)
(** ** Callers: mutations, runs, and the vocabulary of the properties *)
(* ================================================================== *)

Import JS Rx Eff.
Local Open Scope eff_scope.

(** One call of a mutation primitive. *)
Inductive mutation : Type :=
| SetState (stateOrSetFn : literal_or_fn)
| PatchState (partialStateOrPatchFn : literal_or_fn)
| Updater (updaterFn : State -> value -> completion State) (payload : value).

Definition mutate (m : mutation) : ComponentStore.Method unit :=
  match m with
  | SetState a => ComponentStore.setState a
  | PatchState a => ComponentStore.patchState a
  | Updater f p => ComponentStore.updater f p
  end.

(** The store a caller is left with after a call, whether it returned or
    threw. *)
Definition after (m : mutation) (st : ComponentStore.store) : ComponentStore.store :=
  store_of (mutate m st).

(** The store after a sequence of calls, each exception being caught by the
    caller. *)
Definition after_all (ms : list mutation) (st : ComponentStore.store)
  : ComponentStore.store :=
  fold_left (fun s m => after m s) ms st.

(** The store built from [init] and then taken through the calls [ms]. *)
Definition reached (init : State) (ms : list mutation) : ComponentStore.store :=
  after_all ms (ComponentStore.constructor init).

(** The update object a mutation computes in a given store: the new state
    for [setState] and [updater], the partial state for [patchState]. *)
Definition computed_update (m : mutation) (st : ComponentStore.store)
  : completion State :=
  let current := getValue (ComponentStore.stateSubject st) in
  match m with
  | SetState (Literal s) => Normal s
  | SetState (Function f) => f current
  | PatchState (Literal p) => Normal p
  | PatchState (Function f) => f current
  | Updater f p => f current p
  end.

(** The snapshot a mutation publishes, given the update it computed. *)
Definition published (m : mutation) (st : ComponentStore.store) (u : State) : State :=
  match m with
  | PatchState _ => spread2 (getValue (ComponentStore.stateSubject st)) u
  | _ => u
  end.

(** No subject of the store has been completed. *)
Definition liveb (st : ComponentStore.store) : bool :=
  negb (isStopped (ComponentStore.stateSubject st)) &&
  forallb (fun kb => negb (isStopped (snd kb))) (ComponentStore.state st).

Definition live (st : ComponentStore.store) : Prop := liveb st = true.

(** The value held by the Field Cell of [key], if there is one. *)
Definition cell_value (st : ComponentStore.store) (key : string) : option value :=
  option_map getValue (obj_find key (ComponentStore.state st)).

(** The current snapshot. *)
Definition snapshot (st : ComponentStore.store) : State :=
  getValue (ComponentStore.stateSubject st).

(** The Field Cell of [key] delivered something in trace [t]. *)
Definition cell_emits (key : string) (t : list event) : Prop :=
  exists v, In (FieldNext key v) t.

(** Every Field Cell holds the value its field has in the snapshot. *)
Definition consistent (st : ComponentStore.store) : Prop :=
  forall key v, cell_value st key = Some v -> v = get_prop (snapshot st) key.

Definition mem (key : string) (ks : list string) : bool :=
  existsb (String.eqb key) ks.

(** Along a sequence of calls, every computed update is an object that
    names fields of [fields] only. *)
Fixpoint updates_within (fields : list string) (ms : list mutation)
  (st : ComponentStore.store) : bool :=
  match ms with
  | [] => true
  | m :: ms' =>
      match computed_update m st with
      | Normal u => obj_wf u && forallb (fun k => mem k fields) (own_keys u)
      | Throw _ => true
      end
      && updates_within fields ms' (after m st)
  end.

(** Along a sequence of calls, every state that replaces the whole
    snapshot ([setState], [updater]) has all the fields of [fields]. *)
Fixpoint replacements_cover (fields : list string) (ms : list mutation)
  (st : ComponentStore.store) : bool :=
  match ms with
  | [] => true
  | m :: ms' =>
      match m, computed_update m st with
      | PatchState _, _ => true
      | _, Normal u => forallb (fun k => has_own k u) fields
      | _, Throw _ => true
      end
      && replacements_cover fields ms' (after m st)
  end.

(** Reconciliation over [ks] gets as far as [f]: [f] is one of [ks], and it
    and every key enumerated before it has a Field Cell. *)
Fixpoint reaches (table : ComponentStore.ReactiveState) (ks : list string)
  (f : string) : bool :=
  match ks with
  | [] => false
  | k :: ks' => has_own k table && (String.eqb k f || reaches table ks' f)
  end.

(** In the call [m] on [st], which computes the update [u], the Field Cell
    of [f] emits exactly when the published value of [f] differs ([!==])
    from the value the cell held. *)
Definition emits_iff_changed (m : mutation) (st : ComponentStore.store)
  (u : State) (f : string) : Prop :=
  forall old, cell_value st f = Some old ->
    (cell_emits f (trace (mutate m st)) <->
     strict_neq (get_prop (published m st u) f) old = true).

(** The last value the input at position [i] delivered in history [ds]. *)
Definition last_delivered (ds : list (nat * value)) (i : nat) : option value :=
  option_map snd (find (fun d => Nat.eqb (fst d) i) (rev ds)).

Definition is_some {A} (o : option A) : bool :=
  match o with Some _ => true | None => false end.

Definition or_undefined (o : option value) : value :=
  match o with Some v => v | None => VUndefined end.

(** The record pairing the keys of [o], in order, with the latest value of
    each input. *)
Definition latest_record {A} (o : obj A) (ds : list (nat * value)) : obj value :=
  map (fun ki => (fst ki, or_undefined (last_delivered ds (snd ki))))
      (combine (own_keys o) (seq 0 (length o))).

(** *** The operations the two classes share *)

Inductive op : Type :=
| OpSetState (stateOrSetFn : literal_or_fn)
| OpPatchState (partialStateOrPatchFn : literal_or_fn)
| OpUpdater (updaterFn : State -> value -> completion State) (payload : value)
| OpSelect (selectFn : obj (BehaviorSubject value) -> option (BehaviorSubject value))
| OpState
| OpDestroy.

(** What a call hands back to the caller. *)
Inductive answer : Type :=
| Done
| Field (o : BehaviorSubject value)
| Whole (o : BehaviorSubject State)
| Other.

Definition component_op (o : op) : ComponentStore.Method answer :=
  match o with
  | OpSetState a => ComponentStore.setState a ;;; ret Done
  | OpPatchState a => ComponentStore.patchState a ;;; ret Done
  | OpUpdater f p => ComponentStore.updater f p ;;; ret Done
  | OpSelect f =>
      r <- ComponentStore.select (ComponentStore.SelectFn f) ;;
      ret (match r with ComponentStore.OfField b => Field b | _ => Other end)
  | OpState => b <- ComponentStore.state_obs ;; ret (Whole b)
  | OpDestroy => ComponentStore.ngOnDestroy ;;; ret Done
  end.

Definition custom_op (o : op) : CustomStore.Method answer :=
  match o with
  | OpSetState a => CustomStore.setState a ;;; ret Done
  | OpPatchState a => CustomStore.patchState a ;;; ret Done
  | OpUpdater f p => CustomStore.updater f p ;;; ret Done
  | OpSelect f => b <- CustomStore.select f ;; ret (Field b)
  | OpState => b <- CustomStore.state_obs ;; ret (Whole b)
  | OpDestroy => CustomStore.ngOnDestroy ;;; ret Done
  end.

(** A sequence of calls: what each call returned or threw and emitted, and
    the store at the end. *)
Fixpoint run_ops {S} (step : op -> M S answer) (os : list op) (st : S)
  : list (completion answer * list event) * S :=
  match os with
  | [] => ([], st)
  | o :: os' =>
      let r := step o st in
      let (log, st') := run_ops step os' (store_of r) in
      ((outcome r, trace r) :: log, st')
  end.

(** The two stores hold the same subjects. *)
Definition same_store (a : ComponentStore.store) (b : CustomStore.store) : Prop :=
  ComponentStore.state a = CustomStore.state b /\
  ComponentStore.stateSubject a = CustomStore.stateSubject b.

(** *** The two halves of a mutation *)

(** The store once [stateSubject$.next(s)] has run. *)
Definition publish (s : State) (st : ComponentStore.store) : ComponentStore.store :=
  ComponentStore.mkStore (ComponentStore.state st)
    (mkSubject s (isStopped (ComponentStore.stateSubject st)))
    (ComponentStore.destroyRef st).

(** What that call delivers. *)
Definition publish_events (s : State) (st : ComponentStore.store) : list event :=
  if isStopped (ComponentStore.stateSubject st) then [] else [StateNext s].

(** The body of the loop of [checkAndUpdateState], [latestState] fixed. *)
Definition reconcile_field (latestState : State) (key : string)
  : ComponentStore.Method unit :=
  valueOfOutdatedState <- ComponentStore.state_getValue key ;;
  if strict_neq (get_prop latestState key) valueOfOutdatedState
  then ComponentStore.state_next key (get_prop latestState key)
  else ret tt.

(** The loop of [checkAndUpdateState]. *)
Definition reconcile (latestState : State) (ks : list string)
  : ComponentStore.Method unit :=
  for_in ks (reconcile_field latestState).

(** One round of that loop on a key that has the Field Cell [b]: the store
    it leaves and what it delivers. *)
Definition touch (latest : State) (k : string) (b : BehaviorSubject value)
  (st : ComponentStore.store) : ComponentStore.store :=
  if strict_neq (get_prop latest k) (getValue b)
  then ComponentStore.mkStore
         (obj_replace k (mkSubject (get_prop latest k) (isStopped b))
            (ComponentStore.state st))
         (ComponentStore.stateSubject st) (ComponentStore.destroyRef st)
  else st.

Definition touch_events (latest : State) (k : string) (b : BehaviorSubject value)
  : list event :=
  if strict_neq (get_prop latest k) (getValue b) && negb (isStopped b)
  then [FieldNext k (get_prop latest k)] else [].

(** The Field Cell of every field that the snapshot has holds that field's
    value. *)
Definition consistent_on_snapshot (st : ComponentStore.store) : Prop :=
  forall key v,
    In key (own_keys (snapshot st)) ->
    cell_value st key = Some v -> v = get_prop (snapshot st) key.

(** What stays true of a store between calls: the Field Cells are those of
    [fields], the snapshot is an object without a repeated key, and the
    cells of its fields agree with it. *)
Definition well_kept (fields : list string) (st : ComponentStore.store) : Prop :=
  (forall k, In k (own_keys (ComponentStore.state st)) <-> In k fields) /\
  NoDup (own_keys (snapshot st)) /\
  consistent_on_snapshot st.

(** The snapshot has every field of [fields]. *)
Definition covers (fields : list string) (st : ComponentStore.store) : Prop :=
  forall k, In k fields -> In k (own_keys (snapshot st)).

(** A method body of [ComponentStore] and one of [CustomStore] that, run on
    stores holding the same subjects, complete alike, deliver the same
    notifications and leave stores that again hold the same subjects. *)
Definition simulates {A} (m1 : ComponentStore.Method A) (m2 : CustomStore.Method A)
  : Prop :=
  forall s1 s2, same_store s1 s2 ->
    outcome (m1 s1) = outcome (m2 s2) /\
    trace (m1 s1) = trace (m2 s2) /\
    same_store (store_of (m1 s1)) (store_of (m2 s2)).

(** *** Sample states and calls *)

Definition only_a : State := [("a", VNum 0)].
Definition a_and_b : State := [("a", VNum 0); ("b", VNum 0)].

(** [setState(() => { throw "boom" })]. *)
Definition failing_set : mutation :=
  SetState (Function (fun _ => Throw (Thrown (VStr "boom")))).

(** [setState({z: 1, a: 1})]. *)
Definition set_z_a : mutation := SetState (Literal [("z", VNum 1); ("a", VNum 1)]).

(** [setState({a: 1})], which leaves [b] out. *)
Definition set_a_only : mutation := SetState (Literal [("a", VNum 1)]).

(** [setState({a: 0, b: 7})]. *)
Definition set_b_7 : mutation := SetState (Literal [("a", VNum 0); ("b", VNum 7)]).

(** [patchState({z: 1})]. *)
Definition patch_z : mutation := PatchState (Literal [("z", VNum 1)]).

(** A patch, a functional [setState] and an updater call in a row. *)
Definition three_calls : list mutation :=
  [PatchState (Literal [("a", VNum 1)]);
   SetState (Function (fun s => Normal (obj_set "b" (VStr "x") s)));
   Updater (fun s p => Normal [("a", p); ("b", get_prop s "b")]) VNaN].

(** [{x: X, y: Y}], the streams [X] and [Y] going by the names 0 and 1. *)
Definition x_and_y : obj ComponentStore.Stream := [("x", 0); ("y", 1)].

(* ================================================================== *)
(** ** The rest of the class: positional [select], teardown, reads *)
(* ================================================================== *)

(** *** [select(...selectors, selectFn)] (the branch on [instanceof
    Observable]) *)

(** One argument of the call: a stream, or something that is not one. *)
Inductive selector_or_fn : Type :=
| IsObservable (s : ComponentStore.Stream)
| IsFunction (f : list value -> value).

(** The loop over [selectorsWithFn]: streams are pushed onto [selectors],
    anything else is assigned to [selectFn]. *)
Fixpoint split_config (config : list selector_or_fn)
  (selectors : list ComponentStore.Stream) (selectFn : option (list value -> value))
  : list ComponentStore.Stream * option (list value -> value) :=
  match config with
  | [] => (selectors, selectFn)
  | IsObservable s :: config' => split_config config' (selectors ++ [s]) selectFn
  | IsFunction f :: config' => split_config config' selectors (Some f)
  end.

(** [combineLatest(selectors).pipe(map(results => selectFn(...results)))].
    When no function was among the arguments [selectFn] is still
    [undefined]; calling it inside [map] is a [TypeError], which [map]
    turns into the error notification that ends the stream. *)
Definition select_positional (config : list selector_or_fn)
  : Derived ComponentStore.Stream (completion value) :=
  let (selectors, selectFn) := split_config config [] None in
  mkDerived selectors
    (fun ds =>
       let results := emissions (combineLatest selectors) ds in
       match selectFn with
       | Some f => map (fun r => Normal (f r)) results
       | None =>
           match results with
           | [] => []
           | _ :: _ => [Throw TypeError]
           end
       end).

(** The streams among the arguments, in order, and the last argument that
    is not a stream. *)
Fixpoint streams_of (config : list selector_or_fn) : list ComponentStore.Stream :=
  match config with
  | [] => []
  | IsObservable s :: config' => s :: streams_of config'
  | IsFunction _ :: config' => streams_of config'
  end.

Fixpoint last_function (config : list selector_or_fn) : option (list value -> value) :=
  match config with
  | [] => None
  | IsObservable _ :: config' => last_function config'
  | IsFunction f :: config' =>
      match last_function config' with
      | Some g => Some g
      | None => Some f
      end
  end.

(** The latest value of each of [n] inputs after the deliveries [ds]. *)
Definition latest_values (n : nat) (ds : list (nat * value)) : list value :=
  map (fun j => or_undefined (last_delivered ds j)) (seq 0 n).

(** Every one of [n] inputs has delivered in [ds]. *)
Definition all_delivered (n : nat) (ds : list (nat * value)) : bool :=
  forallb (fun j => is_some (last_delivered ds j)) (seq 0 n).

(** *** Vocabulary for teardown and for the snapshot *)

(** Every subject of the store has been completed. *)
Definition all_stopped (st : ComponentStore.store) : Prop :=
  isStopped (ComponentStore.stateSubject st) = true /\
  forall key b, obj_find key (ComponentStore.state st) = Some b -> isStopped b = true.

(** The store after teardown. *)
Definition torn_down (st : ComponentStore.store) : ComponentStore.store :=
  store_of (ComponentStore.ngOnDestroy st).

(** The loop of [ngOnDestroy]. *)
Definition complete_cells (ks : list string) : ComponentStore.Method unit :=
  for_in ks ComponentStore.state_complete.

(** What one call makes of a snapshot, told without the store: a call whose
    function throws leaves it. *)
Definition next_snapshot (m : mutation) (s : State) : State :=
  match m with
  | SetState (Literal u) => u
  | SetState (Function f) =>
      match f s with Normal u => u | Throw _ => s end
  | PatchState (Literal p) => spread2 s p
  | PatchState (Function f) =>
      match f s with Normal p => spread2 s p | Throw _ => s end
  | Updater f payload =>
      match f s payload with Normal u => u | Throw _ => s end
  end.



(** No value of the record is [NaN]. *)
Definition no_NaN (s : State) : bool :=
  forallb (fun kv => match snd kv with VNaN => false | _ => true end) s.

(** The candidates whose published value differs from what their cell
    holds, in enumeration order. *)
Definition changed_fields (st : ComponentStore.store) (s : State) (ks : list string)
  : list string :=
  filter (fun k => strict_neq (get_prop s k) (or_undefined (cell_value st k))) ks.

(** *** More sample values *)

(** [{a: 1, b: 2}] and the store left by the failed [setState({z: 1, a: 1})]. *)
Definition a1_b2 : State := [("a", VNum 1); ("b", VNum 2)].
Definition broken_store : ComponentStore.store :=
  after set_z_a (ComponentStore.constructor only_a).

(** [X, Y, (x, y) => x + y] on numbers. *)
Definition add_numbers (results : list value) : value :=
  match results with
  | [VNum x; VNum y] => VNum (x + y)
  | _ => VNaN
  end.
Definition x_y_plus : list selector_or_fn :=
  [IsObservable 0; IsObservable 1; IsFunction add_numbers].

(* ================================================================== *)
(** ** Facts about values and objects *)
(* ================================================================== *)

Section Values.

Lemma strict_eq_same (v w : value) : strict_eq v w = true -> v = w.
Proof.
  destruct v, w; simpl; try discriminate; intros H; try reflexivity.
  - apply Bool.eqb_prop in H. now subst.
  - apply Z.eqb_eq in H. now subst.
  - apply String.eqb_eq in H. now subst.
  - apply Nat.eqb_eq in H. now subst.
Qed.

Lemma strict_eq_refl (v : value) : v <> VNaN -> strict_eq v v = true.
Proof.
  destruct v; simpl; intros H; try reflexivity.
  - apply Bool.eqb_reflx.
  - apply Z.eqb_refl.
  - contradiction.
  - apply String.eqb_refl.
  - apply Nat.eqb_refl.
Qed.

(** [NaN !== NaN]: the one value that differs from itself. *)
Lemma NaN_differs_from_itself : strict_neq VNaN VNaN = true.
Proof. reflexivity. Qed.

Lemma strict_neq_false_same (v w : value) : strict_neq v w = false -> v = w.
Proof.
  unfold strict_neq. intros H. apply strict_eq_same.
  now apply Bool.negb_false_iff.
Qed.

End Values.

Lemma forallb_ext {X} (f g : X -> bool) (l : list X) :
  (forall x, f x = g x) -> forallb f l = forallb g l.
Proof.
  intros H. induction l as [|x l IH]; cbn; [reflexivity|]. now rewrite H, IH.
Qed.

Section Objects.
Context {A : Type}.
Implicit Types (o : obj A) (k key : string) (a : A).

Lemma mem_In key ks : mem key ks = true <-> In key ks.
Proof.
  unfold mem. rewrite existsb_exists. split.
  - intros [x [Hin Heq]]. apply String.eqb_eq in Heq. now subst.
  - intros Hin. exists key. split; [assumption | apply String.eqb_refl].
Qed.

Lemma obj_find_None key o : obj_find key o = None <-> ~ In key (own_keys o).
Proof.
  induction o as [|[k a] o IH]; simpl.
  - tauto.
  - destruct (String.eqb_spec k key) as [->|Hne].
    + split; [discriminate | intros H; exfalso; apply H; now left].
    + rewrite IH. split.
      * intros H [Heq|Hin]; [now apply Hne | now apply H].
      * intros H Hin. apply H. now right.
Qed.

Lemma obj_find_Some_In key a o : obj_find key o = Some a -> In key (own_keys o).
Proof.
  intros H. destruct (in_dec string_dec key (own_keys o)) as [Hin|Hout].
  - assumption.
  - apply obj_find_None in Hout. congruence.
Qed.

Lemma has_own_In key o : has_own key o = true <-> In key (own_keys o).
Proof.
  unfold has_own. split.
  - destruct (obj_find key o) eqn:E; [|discriminate].
    intros _. eapply obj_find_Some_In; eassumption.
  - intros Hin. destruct (obj_find key o) eqn:E; [reflexivity|].
    apply obj_find_None in E. contradiction.
Qed.

Lemma has_own_false key o : has_own key o = false <-> ~ In key (own_keys o).
Proof.
  rewrite <- has_own_In. destruct (has_own key o); split; congruence.
Qed.

Lemma own_keys_replace key a o : own_keys (obj_replace key a o) = own_keys o.
Proof.
  induction o as [|[k b] o IH]; simpl; [reflexivity|].
  destruct (String.eqb k key); simpl; [reflexivity | now rewrite IH].
Qed.

Lemma obj_find_replace_same key a b o :
  obj_find key o = Some b -> obj_find key (obj_replace key a o) = Some a.
Proof.
  induction o as [|[k c] o IH]; simpl; [discriminate|].
  destruct (String.eqb k key) eqn:E; simpl; rewrite E; auto.
Qed.

Lemma obj_find_replace_other key k a o :
  k <> key -> obj_find k (obj_replace key a o) = obj_find k o.
Proof.
  intros Hne. induction o as [|[k' c] o IH]; simpl; [reflexivity|].
  destruct (String.eqb_spec k' key) as [->|Hk]; simpl.
  - destruct (String.eqb_spec key k); [congruence | reflexivity].
  - destruct (String.eqb k' k); [reflexivity | apply IH].
Qed.

Lemma own_keys_add_In key k a o :
  In k (own_keys (obj_add key a o)) <-> k = key \/ In k (own_keys o).
Proof.
  induction o as [|[k' c] o IH]; simpl.
  - intuition.
  - destruct (goes_before key k'); simpl; [intuition|].
    rewrite IH. intuition.
Qed.

Lemma obj_find_add_same key a o :
  obj_find key o = None -> obj_find key (obj_add key a o) = Some a.
Proof.
  induction o as [|[k c] o IH]; simpl.
  - now rewrite String.eqb_refl.
  - destruct (String.eqb k key) eqn:E; [discriminate|]. intros H.
    destruct (goes_before key k); simpl.
    + now rewrite String.eqb_refl.
    + rewrite E. now apply IH.
Qed.

Lemma obj_find_add_other key k a o :
  k <> key -> obj_find k (obj_add key a o) = obj_find k o.
Proof.
  intros Hne. induction o as [|[k' c] o IH]; simpl.
  - destruct (String.eqb_spec key k); [congruence | reflexivity].
  - destruct (goes_before key k'); simpl.
    + destruct (String.eqb_spec key k); [congruence | reflexivity].
    + destruct (String.eqb k' k); [reflexivity | apply IH].
Qed.

Lemma obj_find_set_same key a o : obj_find key (obj_set key a o) = Some a.
Proof.
  unfold obj_set, has_own. destruct (obj_find key o) eqn:E.
  - eapply obj_find_replace_same; eassumption.
  - now apply obj_find_add_same.
Qed.

Lemma obj_find_set_other key k a o :
  k <> key -> obj_find k (obj_set key a o) = obj_find k o.
Proof.
  intros Hne. unfold obj_set. destruct (has_own key o).
  - now apply obj_find_replace_other.
  - now apply obj_find_add_other.
Qed.

Lemma own_keys_set_In key k a o :
  In k (own_keys (obj_set key a o)) <-> k = key \/ In k (own_keys o).
Proof.
  unfold obj_set. destruct (has_own key o) eqn:E.
  - rewrite own_keys_replace. apply has_own_In in E. split; [tauto|].
    intros [->|H]; assumption.
  - apply own_keys_add_In.
Qed.

(** Assigning [src] onto [target]: a key that [src] does not name reads as
    before. *)
Lemma obj_find_assign_other key (src target : obj A) :
  ~ In key (own_keys src) ->
  obj_find key (obj_assign target src) = obj_find key target.
Proof.
  unfold obj_assign. revert target.
  induction src as [|[k a] src IH]; simpl; intros target Hout; [reflexivity|].
  rewrite IH by tauto.
  apply obj_find_set_other. intros ->. apply Hout. now left.
Qed.

Lemma own_keys_assign_In key (src target : obj A) :
  In key (own_keys (obj_assign target src)) <->
  In key (own_keys target) \/ In key (own_keys src).
Proof.
  unfold obj_assign. revert target.
  induction src as [|[k a] src IH]; simpl; intros target; [tauto|].
  rewrite IH, own_keys_set_In. intuition.
Qed.

(** *** Objects in enumeration order *)

Lemma in_order_irrefl k : in_order k k = false.
Proof.
  unfold in_order. destruct (array_index k).
  - apply N.ltb_irrefl.
  - now rewrite String.eqb_refl.
Qed.

Lemma keys_wf_snoc ks k :
  keys_wf (ks ++ [k]) = true <->
  keys_wf ks = true /\ forall x, In x ks -> in_order x k = true.
Proof.
  induction ks as [|y ks IH]; simpl.
  - intuition.
  - rewrite !Bool.andb_true_iff, forallb_app, Bool.andb_true_iff, IH. simpl.
    rewrite Bool.andb_true_r. split.
    + intros [[H1 H2] [H3 H4]]. repeat split; try assumption.
      intros x [<-|Hx]; [assumption | now apply H4].
    + intros [[H1 H2] H3]. repeat split; try assumption.
      * apply H3. now left.
      * intros x Hx. apply H3. now right.
Qed.

Lemma keys_wf_app_l ks ks' : keys_wf (ks ++ ks') = true -> keys_wf ks = true.
Proof.
  induction ks as [|y ks IH]; simpl; [reflexivity|].
  rewrite !Bool.andb_true_iff, forallb_app, Bool.andb_true_iff.
  intros [[H1 _] H2]. split; [assumption | now apply IH].
Qed.

Lemma goes_before_not_in_order k x : in_order x k = true -> goes_before k x = false.
Proof.
  unfold in_order, goes_before.
  destruct (array_index x), (array_index k); try reflexivity; try discriminate.
  intros H. apply N.ltb_lt in H. apply N.ltb_ge. lia.
Qed.

(** A key that comes after every key of [o] is added at the end. *)
Lemma obj_set_last k a o :
  (forall x, In x (own_keys o) -> in_order x k = true) ->
  obj_set k a o = o ++ [(k, a)].
Proof.
  intros Hord. unfold obj_set.
  assert (Hout : has_own k o = false).
  { apply has_own_false. intros Hin. apply Hord in Hin.
    rewrite in_order_irrefl in Hin. discriminate. }
  rewrite Hout. clear Hout.
  induction o as [|[x b] o IH]; simpl; [reflexivity|].
  rewrite goes_before_not_in_order by (apply Hord; now left).
  f_equal. apply IH. intros y Hy. apply Hord. now right.
Qed.

(** Building an object property by property, in enumeration order,
    appends. *)
Lemma obj_assign_append (pre post : obj A) :
  keys_wf (own_keys (pre ++ post)) = true ->
  obj_assign pre post = pre ++ post.
Proof.
  unfold obj_assign. revert pre.
  induction post as [|[k a] post IH]; simpl; intros pre Hwf.
  - now rewrite app_nil_r.
  - replace (pre ++ (k, a) :: post) with ((pre ++ [(k, a)]) ++ post) in *
      by (rewrite <- app_assoc; reflexivity).
    assert (Hpre : keys_wf (own_keys (pre ++ [(k, a)])) = true)
      by (unfold own_keys in *; rewrite map_app in Hwf; eapply keys_wf_app_l; eassumption).
    unfold own_keys in Hpre. rewrite map_app in Hpre. simpl in Hpre.
    apply keys_wf_snoc in Hpre. destruct Hpre as [_ Hord].
    rewrite obj_set_last by exact Hord.
    now apply IH.
Qed.

(** Copying a real object into a fresh one gives the same object. *)
Lemma obj_copy (o : obj A) : obj_wf o = true -> obj_assign [] o = o.
Proof. intros H. now apply (obj_assign_append [] o). Qed.

Lemma spread2_wf (a b : obj A) : obj_wf a = true -> spread2 a b = obj_assign a b.
Proof. intros H. unfold spread2. now rewrite obj_copy. Qed.

End Objects.

(* ================================================================== *)
(** ** Facts about the store *)
(* ================================================================== *)

Section Mutations.
Import ComponentStore.

(** Every mutation is: compute the update (which may throw), publish, then
    reconcile over the keys of the update. *)
Lemma mutate_unfold (m : mutation) (st : store) :
  mutate m st =
  match computed_update m st with
  | Throw e => (Throw e, st, [])
  | Normal u =>
      let s := published m st u in
      let r := reconcile s (own_keys u) (publish s st) in
      (outcome r, store_of r, publish_events s st ++ trace r)
  end.
Proof.
  destruct st as [tbl [cur stopped] dref].
  destruct m as [[s|f]|[p|f]|f p]; cbn;
    try (destruct (f cur) as [u|e]; cbn; [|reflexivity]);
    try (destruct (f cur p) as [u|e]; cbn; [|reflexivity]).
  all: unfold reconcile, reconcile_field, publish, publish_events, outcome, store_of, trace; cbn.
  all: match goal with
       | |- context [for_in ?ks ?body ?st] => destruct (for_in ks body st) as [[r st'] t]
       end; cbn.
  all: destruct stopped; reflexivity.
Qed.

Lemma reconcile_nil latest st : reconcile latest [] st = (Normal tt, st, []).
Proof. reflexivity. Qed.

Lemma reconcile_cons_found latest k ks st b :
  obj_find k (state st) = Some b ->
  reconcile latest (k :: ks) st =
  let r := reconcile latest ks (touch latest k b st) in
  (outcome r, store_of r, touch_events latest k b ++ trace r).
Proof.
  intros Hb. unfold reconcile, touch, touch_events. cbn.
  unfold bind, reconcile_field, bind, state_getValue, state_next. rewrite Hb.
  destruct (strict_neq (get_prop latest k) (getValue b)); cbn.
  - rewrite Hb. cbn.
    match goal with
    | |- context [for_in ?l ?body ?s] => destruct (for_in l body s) as [[r st'] t]
    end.
    destruct (isStopped b); reflexivity.
  - match goal with
    | |- context [for_in ?l ?body ?s] => destruct (for_in l body s) as [[r st'] t]
    end.
    reflexivity.
Qed.

Lemma reconcile_cons_missing latest k ks st :
  obj_find k (state st) = None ->
  reconcile latest (k :: ks) st = (Throw TypeError, st, []).
Proof.
  intros Hb. unfold reconcile. cbn.
  unfold bind, reconcile_field, bind, state_getValue. now rewrite Hb.
Qed.

Lemma touch_subject latest k b st : stateSubject (touch latest k b st) = stateSubject st.
Proof. unfold touch. now destruct strict_neq. Qed.


Lemma touch_keys latest k b st :
  own_keys (state (touch latest k b st)) = own_keys (state st).
Proof.
  unfold touch. destruct strict_neq; [|reflexivity]. cbn. apply own_keys_replace.
Qed.

Lemma touch_other latest k b st j :
  j <> k -> obj_find j (state (touch latest k b st)) = obj_find j (state st).
Proof.
  intros Hne. unfold touch. destruct strict_neq; [|reflexivity]. cbn.
  now apply obj_find_replace_other.
Qed.

(** After its round, the cell holds the snapshot's value. *)
Lemma touch_same latest k b st :
  obj_find k (state st) = Some b ->
  option_map getValue (obj_find k (state (touch latest k b st)))
  = Some (get_prop latest k).
Proof.
  intros Hb. unfold touch.
  destruct (strict_neq (get_prop latest k) (getValue b)) eqn:E; cbn.
  - erewrite obj_find_replace_same by eassumption. reflexivity.
  - rewrite Hb. cbn. f_equal. symmetry. now apply strict_neq_false_same.
Qed.

Lemma touch_stopped latest k b st j :
  obj_find k (state st) = Some b ->
  option_map isStopped (obj_find j (state (touch latest k b st)))
  = option_map isStopped (obj_find j (state st)).
Proof.
  intros Hb. destruct (string_dec j k) as [->|Hne].
  - unfold touch. destruct strict_neq; [|reflexivity]. cbn.
    erewrite obj_find_replace_same by eassumption. now rewrite Hb.
  - now rewrite touch_other.
Qed.

End Mutations.

Section Reconciliation.
Import ComponentStore.
Variable latest : State.

Ltac round k ks st :=
  let b := fresh "b" in
  let Hb := fresh "Hb" in
  destruct (obj_find k (state st)) as [b|] eqn:Hb;
  [ rewrite (reconcile_cons_found latest k ks st b Hb)
  | rewrite (reconcile_cons_missing latest k ks st Hb) ];
  cbn [outcome store_of trace fst snd].

Lemma reconcile_subject ks st :
  stateSubject (store_of (reconcile latest ks st)) = stateSubject st.
Proof.
  revert st. induction ks as [|k ks IH]; intros st; [reflexivity|].
  round k ks st; [|reflexivity]. now rewrite IH, touch_subject.
Qed.


(** Reconciliation never adds or removes a Field Cell. *)
Lemma reconcile_keys ks st :
  own_keys (state (store_of (reconcile latest ks st))) = own_keys (state st).
Proof.
  revert st. induction ks as [|k ks IH]; intros st; [reflexivity|].
  round k ks st; [|reflexivity]. now rewrite IH, touch_keys.
Qed.

Lemma reconcile_stopped ks st j :
  option_map isStopped (obj_find j (state (store_of (reconcile latest ks st))))
  = option_map isStopped (obj_find j (state st)).
Proof.
  revert st. induction ks as [|k ks IH]; intros st; [reflexivity|].
  round k ks st; [|reflexivity]. rewrite IH. now apply touch_stopped.
Qed.

(** A key outside the candidate set keeps its cell untouched. *)
Lemma reconcile_other ks st j :
  ~ In j ks ->
  obj_find j (state (store_of (reconcile latest ks st))) = obj_find j (state st).
Proof.
  revert st. induction ks as [|k ks IH]; intros st Hout; [reflexivity|].
  round k ks st; [|reflexivity].
  rewrite IH by (intros H; apply Hout; now right).
  apply touch_other. intros ->. apply Hout. now left.
Qed.

(** Reconciliation delivers nothing but new field values of candidates. *)
Lemma reconcile_trace ks st e :
  In e (trace (reconcile latest ks st)) ->
  exists k, In k ks /\ e = FieldNext k (get_prop latest k).
Proof.
  revert st. induction ks as [|k ks IH]; intros st; [intros []|].
  round k ks st; [|intros []].
  rewrite in_app_iff. intros [Hin|Hin].
  - exists k. split; [now left|]. unfold touch_events in Hin.
    destruct (_ && _); [|destruct Hin]. destruct Hin as [<-|[]]. reflexivity.
  - destruct (IH _ Hin) as [k' [Hk' ->]]. exists k'. split; [now right | reflexivity].
Qed.

Lemma has_own_touch k b st j :
  has_own j (state (touch latest k b st)) = has_own j (state st).
Proof.
  destruct (has_own j (state st)) eqn:E.
  - apply has_own_In. rewrite touch_keys. now apply has_own_In.
  - apply has_own_false. rewrite touch_keys. now apply has_own_false.
Qed.

(** The loop returns when every candidate has a Field Cell and throws a
    [TypeError] otherwise. *)
Lemma reconcile_outcome ks st :
  outcome (reconcile latest ks st) =
  if forallb (fun k => has_own k (state st)) ks then Normal tt else Throw TypeError.
Proof.
  revert st. induction ks as [|k ks IH]; intros st; [reflexivity|].
  cbn [forallb]. unfold has_own at 1. round k ks st; [|reflexivity].
  rewrite IH. cbn. erewrite forallb_ext; [reflexivity|].
  intros j. apply has_own_touch.
Qed.

(** A cell that already agrees with the snapshot keeps agreeing. *)
Lemma reconcile_settled ks st j :
  option_map getValue (obj_find j (state st)) = Some (get_prop latest j) ->
  option_map getValue (obj_find j (state (store_of (reconcile latest ks st))))
  = Some (get_prop latest j).
Proof.
  revert st. induction ks as [|k ks IH]; intros st Hj; [assumption|].
  round k ks st; [|assumption].
  apply IH. destruct (string_dec j k) as [->|Hne].
  - now apply touch_same.
  - now rewrite touch_other.
Qed.

(** When the loop returns, every candidate's cell holds the snapshot's
    value. *)
Lemma reconcile_values ks st j :
  forallb (fun k => has_own k (state st)) ks = true ->
  In j ks ->
  option_map getValue (obj_find j (state (store_of (reconcile latest ks st))))
  = Some (get_prop latest j).
Proof.
  revert st. induction ks as [|k ks IH]; intros st Hall Hin; [destruct Hin|].
  cbn [forallb] in Hall. apply Bool.andb_true_iff in Hall. destruct Hall as [Hk Hall].
  unfold has_own in Hk. round k ks st; [|discriminate].
  destruct (string_dec k j) as [->|Hne].
  - apply reconcile_settled. now apply touch_same.
  - destruct Hin as [Heq|Hin]; [contradiction|].
    apply IH; [|assumption].
    erewrite forallb_ext; [exact Hall|]. intros i. apply has_own_touch.
Qed.

(** A cell whose value is not different from the snapshot's stays silent. *)
Lemma reconcile_quiet ks st f old :
  option_map getValue (obj_find f (state st)) = Some old ->
  strict_neq (get_prop latest f) old = false ->
  ~ cell_emits f (trace (reconcile latest ks st)).
Proof.
  revert st. induction ks as [|k ks IH]; intros st Hold Hsame [v Hin]; [destruct Hin|].
  revert Hin. round k ks st; [|intros []].
  rewrite in_app_iff. intros [Hin|Hin].
  - unfold touch_events in Hin.
    destruct (strict_neq (get_prop latest k) (getValue b)) eqn:E; cbn in Hin; [|destruct Hin].
    destruct (isStopped b); cbn in Hin; [destruct Hin|].
    destruct Hin as [Heq|[]]. injection Heq as -> _.
    rewrite Hb in Hold. cbn in Hold. congruence.
  - apply (IH (touch latest k b st)); [| assumption | now exists v].
    destruct (string_dec f k) as [->|Hne].
    + rewrite Hb in Hold. cbn in Hold. injection Hold as Hold.
      unfold touch. rewrite Hold, Hsame. rewrite Hb. cbn. now rewrite Hold.
    + now rewrite touch_other.
Qed.

(** Change-only emission, for every candidate the loop gets to. *)
Lemma reconcile_emits ks st f b :
  reaches (state st) ks f = true ->
  obj_find f (state st) = Some b ->
  isStopped b = false ->
  (cell_emits f (trace (reconcile latest ks st)) <->
   strict_neq (get_prop latest f) (getValue b) = true).
Proof.
  revert st b. induction ks as [|k ks IH]; intros st b Hreach Hf Hlive; [discriminate|].
  cbn [reaches] in Hreach. apply Bool.andb_true_iff in Hreach.
  destruct Hreach as [Hk Hreach]. unfold has_own in Hk.
  round k ks st; [|discriminate].
  destruct (String.eqb_spec k f) as [->|Hne].
  - assert (b0 = b) as -> by congruence.
    destruct (strict_neq (get_prop latest f) (getValue b)) eqn:E.
    + split; [reflexivity|]. intros _. exists (get_prop latest f).
      apply in_app_iff. left. unfold touch_events. rewrite E, Hlive. now left.
    + split; [|discriminate]. intros [v Hin]. exfalso.
      apply in_app_iff in Hin. destruct Hin as [Hin|Hin].
      * unfold touch_events in Hin. rewrite E in Hin. destruct Hin.
      * eapply (reconcile_quiet ks (touch latest f b st) f (getValue b)).
        -- unfold touch. rewrite E. now rewrite Hf.
        -- exact E.
        -- now exists v.
  - cbn in Hreach.
    assert (Hf' : obj_find f (state (touch latest k b0 st)) = Some b)
      by (rewrite touch_other by congruence; assumption).
    rewrite <- (IH (touch latest k b0 st) b); try assumption.
    + unfold cell_emits. split; intros [v Hin]; exists v.
      * apply in_app_iff in Hin. destruct Hin as [Hin|Hin]; [|assumption].
        unfold touch_events in Hin. destruct (_ && _); [|destruct Hin].
        destruct Hin as [Heq|[]]. congruence.
      * apply in_app_iff. now right.
    + clear - Hreach. revert Hreach. generalize ks. intros l. induction l as [|x l IHl]; cbn; [trivial|].
      rewrite has_own_touch. intros H. apply Bool.andb_true_iff in H. destruct H as [-> H].
      cbn. destruct (String.eqb x f); [reflexivity|]. cbn in *. now apply IHl.
Qed.

End Reconciliation.

Section Liveness.
Import ComponentStore.

Lemma obj_find_In_entry {A} key (a : A) (o : obj A) :
  obj_find key o = Some a -> In (key, a) o.
Proof.
  induction o as [|[k c] o IH]; cbn; [discriminate|].
  destruct (String.eqb_spec k key) as [->|Hne].
  - intros H. injection H as ->. now left.
  - intros H. right. now apply IH.
Qed.

Lemma live_subject st : live st -> isStopped (stateSubject st) = false.
Proof.
  unfold live, liveb. intros H. apply Bool.andb_true_iff in H.
  destruct H as [H _]. now apply Bool.negb_true_iff.
Qed.

Lemma live_cell st key b :
  live st -> obj_find key (state st) = Some b -> isStopped b = false.
Proof.
  unfold live, liveb. intros H Hb. apply Bool.andb_true_iff in H.
  destruct H as [_ H]. rewrite forallb_forall in H.
  apply obj_find_In_entry in Hb. apply H in Hb. now apply Bool.negb_true_iff.
Qed.

Lemma publish_events_live s st : live st -> publish_events s st = [StateNext s].
Proof. intros H. unfold publish_events. now rewrite (live_subject st H). Qed.

Lemma live_publish s st : live st -> live (publish s st).
Proof.
  unfold live, liveb, publish. cbn. trivial.
Qed.

Lemma live_touch latest k b st :
  obj_find k (state st) = Some b -> live st -> live (touch latest k b st).
Proof.
  intros Hb Hlive. pose proof (live_cell st k b Hlive Hb) as Hc.
  unfold touch. destruct strict_neq; [|assumption].
  unfold live, liveb in *. cbn. apply Bool.andb_true_iff in Hlive.
  destruct Hlive as [H1 H2]. rewrite H1. cbn.
  clear - H2 Hc. induction (state st) as [|[k' c] o IH]; cbn in *; [reflexivity|].
  apply Bool.andb_true_iff in H2. destruct H2 as [Hc' Ho].
  destruct (String.eqb k' k); cbn.
  - rewrite Hc, Ho. reflexivity.
  - rewrite Hc'. cbn. now apply IH.
Qed.

Lemma live_reconcile latest ks st :
  live st -> live (store_of (reconcile latest ks st)).
Proof.
  revert st. induction ks as [|k ks IH]; intros st Hlive; [assumption|].
  destruct (obj_find k (state st)) as [b|] eqn:Hb.
  - rewrite (reconcile_cons_found latest k ks st b Hb). cbn.
    apply IH. now apply live_touch.
  - now rewrite (reconcile_cons_missing latest k ks st Hb).
Qed.

(** Mutations never complete a subject. *)
Lemma live_after m st : live st -> live (after m st).
Proof.
  intros Hlive. unfold after. rewrite mutate_unfold.
  destruct (computed_update m st) as [u|e]; cbn; [|assumption].
  apply live_reconcile. now apply live_publish.
Qed.

Lemma live_after_all ms st : live st -> live (after_all ms st).
Proof.
  revert st. induction ms as [|m ms IH]; intros st H; cbn; [assumption|].
  apply IH. now apply live_after.
Qed.

Lemma live_constructor init : live (constructor init).
Proof.
  unfold live, liveb, constructor, Object_freeze. cbn.
  generalize (own_keys init). intros ks.
  assert (H : forall acc : ReactiveState,
             forallb (fun kb => negb (isStopped (snd kb))) acc = true ->
             forallb (fun kb => negb (isStopped (snd kb)))
               (fold_left (fun t key => obj_set key (getPropAsBehaviourSubject init key) t) ks acc)
             = true).
  { induction ks as [|k ks IH]; intros acc Hacc; cbn; [assumption|].
    apply IH. unfold obj_set. destruct (has_own k acc).
    - clear - Hacc. induction acc as [|[k' c] o IH]; cbn in *; [reflexivity|].
      apply Bool.andb_true_iff in Hacc. destruct Hacc as [Hc Ho].
      destruct (String.eqb k' k); cbn; [now rewrite Ho | rewrite Hc; now apply IH].
    - clear - Hacc. induction acc as [|[k' c] o IH]; cbn in *; [reflexivity|].
      apply Bool.andb_true_iff in Hacc. destruct Hacc as [Hc Ho].
      destruct (goes_before k k'); cbn; [now rewrite Hc, Ho | rewrite Hc; now apply IH]. }
  now apply H.
Qed.

End Liveness.

Section FieldCellTable.
Import ComponentStore.

Lemma build_keys (F : string -> BehaviorSubject value) ks (acc : ReactiveState) k :
  In k (own_keys (fold_left (fun t key => obj_set key (F key) t) ks acc)) <->
  In k (own_keys acc) \/ In k ks.
Proof.
  revert acc. induction ks as [|x ks IH]; intros acc; cbn [fold_left In]; [tauto|].
  rewrite IH, own_keys_set_In. intuition.
Qed.

Lemma build_cells (F : string -> BehaviorSubject value) ks (acc : ReactiveState) :
  (forall k b, obj_find k acc = Some b -> b = F k) ->
  forall k b,
    obj_find k (fold_left (fun t key => obj_set key (F key) t) ks acc) = Some b ->
    b = F k.
Proof.
  revert acc. induction ks as [|x ks IH]; intros acc Hacc k b; cbn [fold_left]; [apply Hacc|].
  apply IH. intros j c. destruct (string_dec j x) as [->|Hne].
  - rewrite obj_find_set_same. congruence.
  - rewrite obj_find_set_other by assumption. apply Hacc.
Qed.

(** The constructor makes one Field Cell per field of the initial state. *)
Lemma constructor_keys init k :
  In k (own_keys (state (constructor init))) <-> In k (own_keys init).
Proof.
  unfold constructor, Object_freeze. cbn [state].
  rewrite (build_keys (getPropAsBehaviourSubject init)). cbn. tauto.
Qed.

(** Each cell is seeded with its field's value. *)
Lemma constructor_cell init k v :
  cell_value (constructor init) k = Some v -> v = get_prop init k.
Proof.
  unfold cell_value, constructor, Object_freeze. cbn [state].
  destruct (obj_find k _) as [b|] eqn:E; cbn; [|discriminate].
  apply (build_cells (getPropAsBehaviourSubject init)) in E; [|intros ? ?; discriminate].
  subst b. cbn. congruence.
Qed.

(** The table is never restructured. *)
Lemma after_keys m st : own_keys (state (after m st)) = own_keys (state st).
Proof.
  unfold after. rewrite mutate_unfold.
  destruct (computed_update m st) as [u|e]; cbn; [|reflexivity].
  now rewrite reconcile_keys.
Qed.

Lemma after_all_keys ms st :
  own_keys (state (after_all ms st)) = own_keys (state st).
Proof.
  revert st. induction ms as [|m ms IH]; intros st; cbn; [reflexivity|].
  now rewrite IH, after_keys.
Qed.

Lemma after_snapshot m st u :
  computed_update m st = Normal u -> snapshot (after m st) = published m st u.
Proof.
  intros Hu. unfold after, snapshot. rewrite mutate_unfold, Hu. cbn.
  now rewrite reconcile_subject.
Qed.

Lemma after_failed m st e : computed_update m st = Throw e -> after m st = st.
Proof. intros Hu. unfold after. now rewrite mutate_unfold, Hu. Qed.

Lemma state_events_no_field s st f :
  cell_emits f (publish_events s st) -> False.
Proof.
  intros [v Hin]. unfold publish_events in Hin.
  destruct (isStopped _); [destruct Hin|]. destruct Hin as [H|[]]. discriminate.
Qed.

End FieldCellTable.

Section DistinctKeys.
Context {A : Type}.
Implicit Types (o : obj A) (k key : string) (a : A).

(** A real object has no key twice. *)
Lemma keys_wf_NoDup ks : keys_wf ks = true -> NoDup ks.
Proof.
  induction ks as [|k ks IH]; cbn; intros H; constructor.
  - apply Bool.andb_true_iff in H. destruct H as [H _].
    rewrite forallb_forall in H. intros Hin. apply H in Hin.
    rewrite in_order_irrefl in Hin. discriminate.
  - apply Bool.andb_true_iff in H. destruct H as [_ H]. now apply IH.
Qed.

Lemma NoDup_add key a o :
  NoDup (own_keys o) -> ~ In key (own_keys o) -> NoDup (own_keys (obj_add key a o)).
Proof.
  induction o as [|[k b] o IH]; cbn; intros Hnd Hout.
  - constructor; [intros [] | constructor].
  - destruct (goes_before key k); cbn.
    + constructor; assumption.
    + inversion Hnd as [|? ? Hk Ho]; subst. constructor.
      * intros Hin. apply own_keys_add_In in Hin. destruct Hin as [->|Hin].
        -- apply Hout. now left.
        -- now apply Hk.
      * apply IH; [assumption|]. intros Hin. apply Hout. now right.
Qed.

Lemma NoDup_set key a o : NoDup (own_keys o) -> NoDup (own_keys (obj_set key a o)).
Proof.
  intros Hnd. unfold obj_set. destruct (has_own key o) eqn:E.
  - now rewrite own_keys_replace.
  - apply NoDup_add; [assumption|]. now apply has_own_false.
Qed.

Lemma NoDup_assign (target src : obj A) :
  NoDup (own_keys target) -> NoDup (own_keys (obj_assign target src)).
Proof.
  unfold obj_assign. revert target.
  induction src as [|[k a] src IH]; cbn; intros target Hnd; [assumption|].
  apply IH. now apply NoDup_set.
Qed.

Lemma NoDup_spread2 (a b : obj A) : NoDup (own_keys (spread2 a b)).
Proof. unfold spread2. apply NoDup_assign, NoDup_assign. constructor. Qed.

(** Assigning a duplicate-free [src]: its own fields win, the others are
    the target's. *)
Lemma obj_find_assign (target src : obj A) key :
  NoDup (own_keys src) ->
  obj_find key (obj_assign target src) =
  match obj_find key src with
  | Some a => Some a
  | None => obj_find key target
  end.
Proof.
  unfold obj_assign. revert target.
  induction src as [|[k a] src IH]; cbn; intros target Hnd; [reflexivity|].
  inversion Hnd as [|? ? Hk Hsrc]; subst. rewrite IH by assumption.
  destruct (String.eqb_spec k key) as [->|Hne].
  - assert (Hn : obj_find key src = None) by now apply obj_find_None.
    rewrite Hn. apply obj_find_set_same.
  - destruct (obj_find key src); [reflexivity|].
    apply obj_find_set_other. congruence.
Qed.

Lemma obj_find_copy (o : obj A) key :
  NoDup (own_keys o) -> obj_find key (obj_assign [] o) = obj_find key o.
Proof.
  intros Hnd. rewrite obj_find_assign by assumption.
  now destruct (obj_find key o).
Qed.

(** [{...a, ...b}] leaves the fields that [b] does not name as in [a]. *)
Lemma obj_find_spread2_other (a b : obj A) key :
  NoDup (own_keys a) -> ~ In key (own_keys b) ->
  obj_find key (spread2 a b) = obj_find key a.
Proof.
  intros Hnd Hout. unfold spread2.
  rewrite obj_find_assign_other by assumption. now apply obj_find_copy.
Qed.

End DistinctKeys.

Lemma get_prop_spread2_other (a b : State) key :
  NoDup (own_keys a) -> ~ In key (own_keys b) ->
  get_prop (spread2 a b) key = get_prop a key.
Proof.
  intros Hnd Hout. unfold get_prop. now rewrite obj_find_spread2_other.
Qed.

Section RealObjects.
Context {A : Type}.
Implicit Types (o : obj A) (k key : string) (a : A).

(** An array index has one spelling. *)
Lemma array_index_inj k1 k2 n :
  array_index k1 = Some n -> array_index k2 = Some n -> k1 = k2.
Proof.
  unfold array_index. intros H1 H2.
  destruct (NilZero.uint_of_string k1) as [u1|]; [|discriminate].
  destruct (NilZero.uint_of_string k2) as [u2|]; [|discriminate].
  destruct (String.eqb_spec (NilZero.string_of_uint (N.to_uint (N.of_uint u1))) k1)
    as [E1|]; [|discriminate].
  destruct (String.eqb_spec (NilZero.string_of_uint (N.to_uint (N.of_uint u2))) k2)
    as [E2|]; [|discriminate].
  cbn in H1, H2.
  destruct (N.ltb (N.of_uint u1) 4294967295); [|discriminate].
  destruct (N.ltb (N.of_uint u2) 4294967295); [|discriminate].
  injection H1 as H1. injection H2 as H2. congruence.
Qed.

Lemma in_order_after_goes_before key k y :
  goes_before key k = true -> in_order k y = true -> in_order key y = true.
Proof.
  unfold goes_before, in_order.
  destruct (array_index key) as [n|]; [|discriminate].
  destruct (array_index k) as [m|], (array_index y) as [m'|];
    try reflexivity; try discriminate.
  intros H1 H2. apply N.ltb_lt in H1, H2. apply N.ltb_lt. lia.
Qed.

Lemma in_order_goes_before key k : goes_before key k = true -> in_order key k = true.
Proof.
  unfold goes_before, in_order.
  destruct (array_index key) as [n|]; [|discriminate].
  now destruct (array_index k).
Qed.

Lemma in_order_not_goes_before key k :
  goes_before key k = false -> k <> key -> in_order k key = true.
Proof.
  unfold goes_before, in_order. intros H Hne.
  destruct (array_index key) as [n|] eqn:En, (array_index k) as [m|] eqn:Em;
    try reflexivity; try discriminate.
  - apply N.ltb_ge in H. apply N.ltb_lt.
    assert (m <> n) by (intros ->; apply Hne; eapply array_index_inj; eassumption).
    lia.
  - apply Bool.negb_true_iff. now apply String.eqb_neq.
Qed.

Lemma keys_wf_add key a o :
  keys_wf (own_keys o) = true -> ~ In key (own_keys o) ->
  keys_wf (own_keys (obj_add key a o)) = true.
Proof.
  induction o as [|[k b] o IH]; cbn [obj_add own_keys map fst keys_wf]; intros Hwf Hout.
  - reflexivity.
  - apply Bool.andb_true_iff in Hwf. destruct Hwf as [Hk Ho].
    destruct (goes_before key k) eqn:E; cbn [map fst keys_wf forallb].
    + rewrite (in_order_goes_before key k E), Hk, Ho. cbn.
      rewrite Bool.andb_true_r. apply forallb_forall. intros y Hy.
      rewrite forallb_forall in Hk.
      eapply in_order_after_goes_before; [exact E | now apply Hk].
    + apply Bool.andb_true_iff. split.
      * apply forallb_forall. intros y Hy.
        apply (own_keys_add_In key y a o) in Hy. destruct Hy as [->|Hy].
        -- apply in_order_not_goes_before; [assumption|].
           intros ->. apply Hout. now left.
        -- rewrite forallb_forall in Hk. now apply Hk.
      * apply IH; [assumption|]. intros Hin. apply Hout. now right.
Qed.

(** Writing a property keeps a real object real. *)
Lemma obj_wf_set key a o : obj_wf o = true -> obj_wf (obj_set key a o) = true.
Proof.
  unfold obj_wf, obj_set. intros Hwf. destruct (has_own key o) eqn:E.
  - now rewrite own_keys_replace.
  - apply keys_wf_add; [assumption | now apply has_own_false].
Qed.

Lemma obj_wf_assign (target src : obj A) :
  obj_wf target = true -> obj_wf (obj_assign target src) = true.
Proof.
  unfold obj_assign. revert target.
  induction src as [|[k a] src IH]; cbn; intros target Hwf; [assumption|].
  apply IH. now apply obj_wf_set.
Qed.

(** An object literal with spreads is a real object. *)
Lemma obj_wf_spread2 (a b : obj A) : obj_wf (spread2 a b) = true.
Proof. unfold spread2. now apply obj_wf_assign, obj_wf_assign. Qed.

End RealObjects.

Section Invariant.
Import ComponentStore.

Lemma after_unfold m st u :
  computed_update m st = Normal u ->
  after m st =
  store_of (reconcile (published m st u) (own_keys u) (publish (published m st u) st)).
Proof. intros Hu. unfold after. now rewrite mutate_unfold, Hu. Qed.

(** What a mutation publishes is a real object when its update is one. *)
Lemma published_wf m st u : obj_wf u = true -> obj_wf (published m st u) = true.
Proof.
  intros Hwf. destruct m as [a|a|fn p]; cbn [published]; try assumption.
  apply obj_wf_spread2.
Qed.

Lemma well_kept_constructor init :
  obj_wf init = true -> well_kept (own_keys init) (constructor init).
Proof.
  intros Hwf. repeat split.
  - now apply constructor_keys.
  - now apply constructor_keys.
  - now apply keys_wf_NoDup.
  - intros key v _ Hv. now apply constructor_cell.
Qed.

(** One call keeps the store well kept, provided its update is an object
    that names known fields only. *)
Lemma well_kept_after fields m st :
  well_kept fields st ->
  match computed_update m st with
  | Normal u => obj_wf u && forallb (fun k => mem k fields) (own_keys u)
  | Throw _ => true
  end = true ->
  well_kept fields (after m st).
Proof.
  intros [Hkeys [Hnd Hcons]] Hwithin.
  destruct (computed_update m st) as [u|e] eqn:Hu.
  2: { rewrite (after_failed m st e Hu). now repeat split; try apply Hkeys. }
  apply Bool.andb_true_iff in Hwithin. destruct Hwithin as [Hwf Hin].
  rewrite forallb_forall in Hin.
  assert (Hcells : forallb (fun k => has_own k (state (publish (published m st u) st)))
                     (own_keys u) = true).
  { apply forallb_forall. intros k Hk. apply has_own_In. cbn.
    apply Hkeys. apply mem_In. now apply Hin. }
  split; [|split].
  - intros k. rewrite after_keys. apply Hkeys.
  - rewrite (after_snapshot m st u Hu).
    destruct m as [a|a|fn p]; cbn [published];
      try (now apply keys_wf_NoDup); apply NoDup_spread2.
  - intros key v. rewrite (after_snapshot m st u Hu). intros Hfield Hv.
    unfold cell_value in Hv. rewrite (after_unfold m st u Hu) in Hv.
    destruct (in_dec string_dec key (own_keys u)) as [Hk|Hk].
    + rewrite (reconcile_values _ _ _ key Hcells Hk) in Hv. congruence.
    + rewrite reconcile_other in Hv by assumption. cbn [publish state] in Hv.
      destruct m as [a|a|fn p]; cbn [published] in *; try contradiction.
      rewrite get_prop_spread2_other by assumption.
      apply Hcons; [|exact Hv].
      unfold spread2 in Hfield. rewrite !own_keys_assign_In in Hfield.
      cbn in Hfield. tauto.
Qed.

Lemma well_kept_run fields ms st :
  well_kept fields st ->
  updates_within fields ms st = true ->
  forall n, well_kept fields (after_all (firstn n ms) st).
Proof.
  revert st. induction ms as [|m ms IH]; intros st Hst Hw n.
  - now rewrite firstn_nil.
  - destruct n as [|n]; [assumption|].
    cbn [updates_within] in Hw.
    apply Bool.andb_true_iff in Hw. destruct Hw as [Hw Hws].
    cbn [firstn after_all fold_left]. apply IH; try assumption.
    now apply well_kept_after.
Qed.

(** A call that drops no field when it replaces the snapshot keeps every
    field in the snapshot. *)
Lemma covers_after fields m st :
  covers fields st ->
  match m, computed_update m st with
  | PatchState _, _ => true
  | _, Normal u => forallb (fun k => has_own k u) fields
  | _, Throw _ => true
  end = true ->
  covers fields (after m st).
Proof.
  intros Hcov Hcover k Hk.
  destruct (computed_update m st) as [u|e] eqn:Hu.
  2: { rewrite (after_failed m st e Hu). now apply Hcov. }
  rewrite (after_snapshot m st u Hu).
  destruct m as [a|a|fn p]; cbn [published]; rewrite ?Hu in Hcover.
  - apply has_own_In. rewrite forallb_forall in Hcover. now apply Hcover.
  - unfold spread2. rewrite !own_keys_assign_In. left. right. now apply Hcov.
  - apply has_own_In. rewrite forallb_forall in Hcover. now apply Hcover.
Qed.

Lemma covers_run fields ms st :
  covers fields st ->
  replacements_cover fields ms st = true ->
  forall n, covers fields (after_all (firstn n ms) st).
Proof.
  revert st. induction ms as [|m ms IH]; intros st Hst Hc n.
  - now rewrite firstn_nil.
  - destruct n as [|n]; [assumption|].
    cbn [replacements_cover] in Hc.
    apply Bool.andb_true_iff in Hc. destruct Hc as [Hc Hcs].
    cbn [firstn after_all fold_left]. apply IH; try assumption.
    now apply covers_after.
Qed.

End Invariant.

Section LatestValues.

Lemma combineLatest_run_last latest ds d :
  combineLatest_run latest (ds ++ [d]) =
  combineLatest_run latest ds
    ++ snd (combineLatest_step (combineLatest_state latest ds) d).
Proof.
  revert latest. induction ds as [|x ds IH]; intros latest; cbn.
  - destruct (combineLatest_step latest d) as [l out]. cbn. now rewrite app_nil_r.
  - destruct (combineLatest_step latest x) as [l out]. cbn.
    rewrite IH. now rewrite app_assoc.
Qed.

Lemma combineLatest_state_last latest ds d :
  combineLatest_state latest (ds ++ [d]) =
  fst (combineLatest_step (combineLatest_state latest ds) d).
Proof. unfold combineLatest_state. now rewrite fold_left_app. Qed.

Lemma last_delivered_last ds i v j :
  last_delivered (ds ++ [(i, v)]) j =
  if Nat.eqb i j then Some v else last_delivered ds j.
Proof.
  unfold last_delivered. rewrite rev_app_distr. cbn.
  now destruct (Nat.eqb i j).
Qed.

Lemma set_nth_map_seq {X} (f : nat -> X) (a : X) i s n :
  i < n ->
  set_nth i a (map f (seq s n)) =
  map (fun j => if Nat.eqb (s + i) j then a else f j) (seq s n).
Proof.
  revert i s. induction n as [|n IH]; intros i s Hi; [lia|].
  cbn [seq map]. destruct i as [|i]; cbn [set_nth].
  - rewrite Nat.add_0_r, Nat.eqb_refl. f_equal.
    apply map_ext_in. intros j Hj. apply in_seq in Hj.
    destruct (Nat.eqb_spec s j); [lia | reflexivity].
  - destruct (Nat.eqb_spec (s + S i) s); [lia|]. f_equal.
    rewrite IH by lia. apply map_ext. intros j.
    now replace (S s + i) with (s + S i) by lia.
Qed.

Lemma repeat_None_seq n :
  repeat (@None value) n = map (last_delivered []) (seq 0 n).
Proof.
  generalize 0. induction n as [|n IH]; intros s; cbn; [reflexivity|].
  f_equal. apply IH.
Qed.

(** The array kept by [combineLatest] holds, at each position, the last
    value delivered there. *)
Lemma combineLatest_state_latest n ds :
  combineLatest_state (repeat None n) ds = map (last_delivered ds) (seq 0 n).
Proof.
  induction ds as [|[i v] ds IH] using rev_ind.
  - apply repeat_None_seq.
  - rewrite combineLatest_state_last, IH. unfold combineLatest_step.
    rewrite length_map, length_seq. cbn [fst snd].
    destruct (Nat.ltb_spec i n) as [Hi|Hi]; cbn [fst].
    + rewrite set_nth_map_seq by assumption.
      apply map_ext. intros j. now rewrite last_delivered_last.
    + apply map_ext_in. intros j Hj. apply in_seq in Hj.
      rewrite last_delivered_last.
      destruct (Nat.eqb_spec i j); [lia | reflexivity].
Qed.

Lemma all_present_map {X} (f : X -> option value) (l : list X) :
  all_present (map f l) =
  if forallb (fun j => is_some (f j)) l
  then Some (map (fun j => or_undefined (f j)) l)
  else None.
Proof.
  induction l as [|x l IH]; cbn; [reflexivity|].
  destruct (f x); cbn; [|reflexivity].
  rewrite IH. now destruct (forallb _ l).
Qed.

Lemma combine_map_r {X Y Z} (g : Y -> Z) (ks : list X) (l : list Y) :
  combine ks (map g l) = map (fun ki => (fst ki, g (snd ki))) (combine ks l).
Proof.
  revert l. induction ks as [|k ks IH]; intros [|y l]; cbn; try reflexivity.
  now rewrite IH.
Qed.

(** Rebuilding the record key by key, in the enumeration order of the
    keys, lists the keys in that order. *)
Lemma view_model_build (keys : list string) (vs : list value) :
  forall (done : obj value) (rest : list string),
    keys = own_keys done ++ rest ->
    length rest = length vs ->
    keys_wf keys = true ->
    fold_left
      (fun vm iv =>
         obj_set (ComponentStore.key_at keys (fst iv)) (snd iv) (obj_assign [] vm))
      (combine (seq (length done) (length vs)) vs) done
    = done ++ combine rest vs.
Proof.
  induction vs as [|v vs IH]; intros done rest Hkeys Hlen Hwf.
  - destruct rest; [|discriminate]. cbn. now rewrite app_nil_r.
  - destruct rest as [|k rest]; [discriminate|]. cbn [length seq combine fold_left fst snd].
    assert (Hdone : keys_wf (own_keys done ++ [k]) = true).
    { apply (keys_wf_app_l _ rest). rewrite <- app_assoc. cbn. now rewrite <- Hkeys. }
    apply keys_wf_snoc in Hdone. destruct Hdone as [Hwfd Hord].
    assert (Hkey : ComponentStore.key_at keys (length done) = k).
    { unfold ComponentStore.key_at. rewrite Hkeys.
      rewrite app_nth2 by (unfold own_keys; rewrite length_map; lia).
      unfold own_keys. rewrite length_map, Nat.sub_diag. reflexivity. }
    rewrite Hkey, (obj_copy done Hwfd), (obj_set_last k v done Hord).
    replace (S (length done)) with (length (done ++ [(k, v)]))
      by (rewrite length_app; cbn; lia).
    rewrite (IH (done ++ [(k, v)]) rest).
    + rewrite <- app_assoc. reflexivity.
    + rewrite Hkeys. unfold own_keys. rewrite map_app, <- app_assoc. reflexivity.
    + cbn in Hlen. lia.
    + assumption.
Qed.

Lemma to_view_model_combine (keys : list string) (vs : list value) :
  keys_wf keys = true -> length keys = length vs ->
  ComponentStore.to_view_model keys vs = combine keys vs.
Proof.
  intros Hwf Hlen. unfold ComponentStore.to_view_model.
  apply (view_model_build keys vs [] keys); auto.
Qed.

(** One more delivery: what the view-model stream adds. *)
Lemma select_record_last (o : obj ComponentStore.Stream) ds i v :
  obj_wf o = true ->
  emissions (ComponentStore.select_record o) (ds ++ [(i, v)]) =
  emissions (ComponentStore.select_record o) ds ++
  (if Nat.ltb i (length o)
      && forallb (fun j => is_some (last_delivered (ds ++ [(i, v)]) j))
           (seq 0 (length o))
   then [latest_record o (ds ++ [(i, v)])] else []).
Proof.
  intros Hwf. unfold ComponentStore.select_record, pipe_map, combineLatest.
  cbn [emissions]. rewrite length_map.
  rewrite combineLatest_run_last, map_app. f_equal.
  pose proof (combineLatest_state_latest (length o) (ds ++ [(i, v)])) as Hst.
  rewrite combineLatest_state_last in Hst.
  unfold combineLatest_step in *.
  rewrite combineLatest_state_latest in *.
  rewrite length_map, length_seq in *. cbn [fst snd] in *.
  destruct (Nat.ltb i (length o)); cbn [fst snd andb map] in *; [|reflexivity].
  rewrite Hst, all_present_map.
  destruct (forallb _ _); cbn [map]; [|reflexivity].
  f_equal. unfold latest_record.
  rewrite to_view_model_combine.
  - apply (combine_map_r (fun j => or_undefined (last_delivered (ds ++ [(i, v)]) j))).
  - exact Hwf.
  - unfold own_keys. now rewrite !length_map, length_seq.
Qed.

Lemma own_keys_latest_record {X} (o : obj X) ds :
  own_keys (latest_record o ds) = own_keys o.
Proof.
  unfold latest_record, own_keys. rewrite map_map. cbn [fst].
  assert (H : forall (l : list string) s n, length l = n ->
            map (fun ki : string * nat => fst ki) (combine l (seq s n)) = l).
  { induction l as [|k l IH]; intros s [|n] Hl; try discriminate; cbn; [reflexivity|].
    f_equal. apply IH. cbn in Hl. lia. }
  apply H. now rewrite length_map.
Qed.

End LatestValues.

Section TwoStores.

Lemma sim_ret {A} (a : A) : simulates (ret a) (ret a).
Proof. intros s1 s2 [H1 H2]. repeat split; assumption || reflexivity. Qed.

Lemma sim_call {A} (c : completion A) : simulates (call c) (call c).
Proof. intros s1 s2 [H1 H2]. repeat split; assumption || reflexivity. Qed.

Lemma sim_bind {A B} m1 m2 (f1 : A -> ComponentStore.Method B)
  (f2 : A -> CustomStore.Method B) :
  simulates m1 m2 -> (forall a, simulates (f1 a) (f2 a)) ->
  simulates (bind m1 f1) (bind m2 f2).
Proof.
  intros Hm Hf s1 s2 Hs. unfold bind.
  destruct (Hm s1 s2 Hs) as [Ho [Ht Hs']].
  destruct (m1 s1) as [[r1 s1'] t1], (m2 s2) as [[r2 s2'] t2].
  cbn in Ho, Ht, Hs'. subst r2 t2.
  destruct r1 as [a|e].
  - destruct (Hf a s1' s2' Hs') as [Ho' [Ht' [Hs1 Hs2]]].
    destruct (f1 a s1') as [[r1 s1''] u1], (f2 a s2') as [[r2 s2''] u2].
    cbn in Ho', Ht', Hs1, Hs2. subst r2 u2.
    repeat split; assumption || reflexivity.
  - destruct Hs' as [Hs1 Hs2]. repeat split; assumption || reflexivity.
Qed.

Lemma sim_for_in ks (b1 : string -> ComponentStore.Method unit)
  (b2 : string -> CustomStore.Method unit) :
  (forall k, simulates (b1 k) (b2 k)) ->
  simulates (for_in ks b1) (for_in ks b2).
Proof.
  intros Hb. induction ks as [|k ks IH]; cbn.
  - apply sim_ret.
  - apply sim_bind; [apply Hb | intros _; exact IH].
Qed.

Ltac same_subjects :=
  intros [t1 b1 d1] [t2 b2] [Ht Hb]; cbn in Ht, Hb; subst t2 b2.

Ltac alike := repeat split; reflexivity.

Lemma sim_stateSubject_getValue :
  simulates ComponentStore.stateSubject_getValue CustomStore.stateSubject_getValue.
Proof. same_subjects. alike. Qed.

Lemma sim_stateSubject_next s :
  simulates (ComponentStore.stateSubject_next s) (CustomStore.stateSubject_next s).
Proof. same_subjects. alike. Qed.

Lemma sim_stateSubject_complete :
  simulates ComponentStore.stateSubject_complete CustomStore.stateSubject_complete.
Proof. same_subjects. alike. Qed.

Lemma sim_this_state : simulates ComponentStore.this_state CustomStore.this_state.
Proof. same_subjects. alike. Qed.

Lemma sim_state_obs : simulates ComponentStore.state_obs CustomStore.state_obs.
Proof. same_subjects. alike. Qed.

Lemma sim_state_getValue key :
  simulates (ComponentStore.state_getValue key) (CustomStore.state_getValue key).
Proof.
  same_subjects.
  unfold ComponentStore.state_getValue, CustomStore.state_getValue. cbn.
  destruct (obj_find key t1); alike.
Qed.

Lemma sim_state_next key v :
  simulates (ComponentStore.state_next key v) (CustomStore.state_next key v).
Proof.
  same_subjects.
  unfold ComponentStore.state_next, CustomStore.state_next. cbn.
  destruct (obj_find key t1); alike.
Qed.

Lemma sim_state_complete key :
  simulates (ComponentStore.state_complete key) (CustomStore.state_complete key).
Proof.
  same_subjects.
  unfold ComponentStore.state_complete, CustomStore.state_complete. cbn.
  destruct (obj_find key t1); alike.
Qed.

Lemma sim_frozenState : simulates ComponentStore.frozenState CustomStore.frozenState.
Proof.
  apply sim_bind; [apply sim_stateSubject_getValue | intros a; apply sim_ret].
Qed.

Lemma sim_checkAndUpdateState u :
  simulates (ComponentStore.checkAndUpdateState u) (CustomStore.checkAndUpdateState u).
Proof.
  apply sim_bind; [apply sim_stateSubject_getValue|]. intros latest.
  apply sim_for_in. intros key.
  apply sim_bind; [apply sim_state_getValue|]. intros old.
  destruct (strict_neq _ old); [apply sim_state_next | apply sim_ret].
Qed.

Lemma sim_setState a :
  simulates (ComponentStore.setState a) (CustomStore.setState a).
Proof.
  apply sim_bind.
  - destruct a as [s|f]; [apply sim_ret|].
    apply sim_bind; [apply sim_frozenState | intros frozen; apply sim_call].
  - intros u. apply sim_bind; [apply sim_stateSubject_next|].
    intros _. apply sim_checkAndUpdateState.
Qed.

Lemma sim_patchState a :
  simulates (ComponentStore.patchState a) (CustomStore.patchState a).
Proof.
  apply sim_bind; [apply sim_frozenState|]. intros frozen.
  apply sim_bind.
  - destruct a as [s|f]; [apply sim_ret | apply sim_call].
  - intros u. apply sim_bind; [apply sim_stateSubject_next|].
    intros _. apply sim_checkAndUpdateState.
Qed.

Lemma sim_updater {Payload} (fn : State -> Payload -> completion State) p :
  simulates (ComponentStore.updater fn p) (CustomStore.updater fn p).
Proof.
  apply sim_bind; [apply sim_frozenState|]. intros frozen.
  apply sim_bind; [apply sim_call|].
  intros u. apply sim_bind; [apply sim_stateSubject_next|].
  intros _. apply sim_checkAndUpdateState.
Qed.

Lemma sim_ngOnDestroy : simulates ComponentStore.ngOnDestroy CustomStore.ngOnDestroy.
Proof.
  apply sim_bind; [apply sim_this_state|]. intros table.
  apply sim_bind; [|intros _; apply sim_stateSubject_complete].
  apply sim_for_in. intros key. apply sim_state_complete.
Qed.

Lemma sim_select f :
  simulates
    (r <- ComponentStore.select (ComponentStore.SelectFn f) ;;
     ret (match r with ComponentStore.OfField b => Field b | _ => Other end))%eff
    (b <- CustomStore.select f ;; ret (Field b))%eff.
Proof.
  same_subjects.
  unfold ComponentStore.select, CustomStore.select, bind,
    ComponentStore.this_state, CustomStore.this_state, call, ret. cbn.
  destruct (f t1); alike.
Qed.

Lemma sim_op o : simulates (component_op o) (custom_op o).
Proof.
  destruct o as [a|a|fn p|f| |]; cbn [component_op custom_op].
  - apply sim_bind; [apply sim_setState | intros _; apply sim_ret].
  - apply sim_bind; [apply sim_patchState | intros _; apply sim_ret].
  - apply sim_bind; [apply sim_updater | intros _; apply sim_ret].
  - apply sim_select.
  - apply sim_bind; [apply sim_state_obs | intros b; apply sim_ret].
  - apply sim_bind; [apply sim_ngOnDestroy | intros _; apply sim_ret].
Qed.

Lemma sim_run os s1 s2 :
  same_store s1 s2 ->
  fst (run_ops component_op os s1) = fst (run_ops custom_op os s2) /\
  same_store (snd (run_ops component_op os s1)) (snd (run_ops custom_op os s2)).
Proof.
  revert s1 s2. induction os as [|o os IH]; intros s1 s2 Hs; cbn [run_ops].
  - split; [reflexivity | assumption].
  - destruct (sim_op o s1 s2 Hs) as [Ho [Ht Hs']].
    specialize (IH _ _ Hs').
    destruct (run_ops component_op os (store_of (component_op o s1))) as [l1 e1].
    destruct (run_ops custom_op os (store_of (custom_op o s2))) as [l2 e2].
    cbn in *. destruct IH as [-> He]. rewrite Ho, Ht. now split.
Qed.

End TwoStores.

(* ================================================================== *)
(** ** The model at work *)
(* ================================================================== *)

Section Examples.
Import ComponentStore.

(** Array-index keys are enumerated first and in numeric order, whatever
    the order of insertion; teardown completes the cells in that order and
    the snapshot stream last. *)
Example teardown_order :
  trace (ngOnDestroy (constructor [("b", VNum 0); ("10", VNum 0); ("9", VNum 1)]))
  = [FieldComplete "9"; FieldComplete "10"; FieldComplete "b"; StateComplete].
Proof. reflexivity. Qed.

(** After teardown a mutation still stores its values but delivers
    nothing. *)
Example silent_after_teardown :
  trace (mutate set_b_7 (store_of (ngOnDestroy (constructor a_and_b)))) = [] /\
  snapshot (after set_b_7 (store_of (ngOnDestroy (constructor a_and_b))))
  = [("a", VNum 0); ("b", VNum 7)].
Proof. split; reflexivity. Qed.

(** A field that holds [NaN] is emitted again by every mutation that names
    it, since [NaN !== NaN]. *)
Example NaN_is_emitted_again :
  trace (patchState (Literal [("a", VNaN)]) (constructor [("a", VNaN)]))
  = [StateNext [("a", VNaN)]; FieldNext "a" VNaN].
Proof. reflexivity. Qed.

(** A patch with the value a field already has emits the snapshot only. *)
Example same_value_is_not_emitted :
  trace (patchState (Literal [("a", VNum 0)]) (constructor a_and_b))
  = [StateNext a_and_b].
Proof. reflexivity. Qed.

(** The example of selector shape 3: [X] sends ['a'], [Y] sends [1], then
    [X] sends ['b']. *)
Example select_x_and_y :
  emissions (select_record x_and_y) [(0, VStr "a"); (1, VNum 1); (0, VStr "b")]
  = [[("x", VStr "a"); ("y", VNum 1)]; [("x", VStr "b"); ("y", VNum 1)]].
Proof. reflexivity. Qed.

(** The callable of [effect] on a truthy literal, a falsy one, and on
    nothing. *)
Example effect_sources :
  effect_source (Static (VStr "go")) = [NextN (VStr "go"); CompleteN] /\
  effect_source (Static (VNum 0)) = [CompleteN] /\
  effect_source omitted = [CompleteN].
Proof. repeat split. Qed.

End Examples.

(* ================================================================== *)
(** ** The properties of the specification *)
(* ================================================================== *)

Section Properties.
Import ComponentStore.

(** C4 (updater / setState equivalence).  For every transition function
    [fn], every payload [p] and every store, calling the callable made by
    [updater(fn)] with [p] has the same outcome, leaves the same store and
    delivers the same notifications in the same order as
    [setState(s => fn(s, p))]. *)
Theorem updater_same_as_setState {Payload : Type}
  (fn : State -> Payload -> completion State) (p : Payload) (st : store) :
  updater fn p st = setState (Function (fun s => fn s p)) st.
Proof.
  unfold updater, setState, frozenState, stateSubject_getValue, call, bind, ret.
  cbn. destruct (fn _ p) as [u|e]; [|reflexivity].
  unfold stateSubject_next, checkAndUpdateState, stateSubject_getValue, bind. cbn.
  match goal with
  | |- context [for_in ?l ?body ?s] => destruct (for_in l body s) as [[r st'] t]
  end.
  reflexivity.
Qed.

(** C5 (transition-failure atomicity).  When the transition function given
    to [setState], [patchState] or an updater throws [e] on the current
    snapshot, the call throws the same [e] to its caller, nothing is
    delivered on any subject, and the store (snapshot and every Field Cell)
    is exactly as before. *)
Theorem transition_failure_atomic (m : mutation) (st : store) (e : error) :
  computed_update m st = Throw e ->
  mutate m st = (Throw e, st, []).
Proof. intros H. now rewrite mutate_unfold, H. Qed.

Lemma transition_failure_atomic_witness :
  mutate failing_set (constructor only_a)
  = (Throw (Thrown (VStr "boom")), constructor only_a, []).
Proof.
  apply (transition_failure_atomic failing_set (constructor only_a)
           (Thrown (VStr "boom"))).
  reflexivity.
Defined.

(** C6 (emission ordering).  In a store that has not been torn down, a
    mutation whose update is computed delivers the new snapshot on the
    snapshot stream first, and everything delivered after it in that call is
    a Field Cell value; a mutation whose transition function throws delivers
    nothing. *)
Theorem snapshot_before_cells (m : mutation) (st : store) :
  live st ->
  match computed_update m st with
  | Normal u =>
      exists fields,
        trace (mutate m st) = StateNext (published m st u) :: fields /\
        forall e, In e fields -> exists k, e = FieldNext k (get_prop (published m st u) k)
  | Throw _ => trace (mutate m st) = []
  end.
Proof.
  intros Hlive. rewrite mutate_unfold.
  destruct (computed_update m st) as [u|e]; cbn; [|reflexivity].
  rewrite publish_events_live by assumption.
  eexists. split; [reflexivity|].
  intros e He. apply reconcile_trace in He. destruct He as [k [_ ->]]. now exists k.
Qed.

Lemma snapshot_before_cells_witness :
  exists fields,
    trace (mutate set_b_7 (constructor a_and_b))
    = StateNext [("a", VNum 0); ("b", VNum 7)] :: fields /\
    forall e, In e fields ->
      exists k, e = FieldNext k (get_prop [("a", VNum 0); ("b", VNum 7)] k).
Proof.
  apply (snapshot_before_cells set_b_7 (constructor a_and_b)).
  reflexivity.
Defined.

(** C2 as stated fails: a candidate field enumerated after a field that has
    no Field Cell is never reconciled.  From [{a: 0}], [setState({z: 1, a: 1})]
    throws at [z], so the cell of [a] stays silent although [1 !== 0]. *)
Lemma change_only_emission_fails_after_unknown_field :
  live (constructor only_a) /\
  computed_update set_z_a (constructor only_a)
  = Normal [("z", VNum 1); ("a", VNum 1)] /\
  In "a" (own_keys [("z", VNum 1); ("a", VNum 1)]) /\
  ~ emits_iff_changed set_z_a (constructor only_a)
      [("z", VNum 1); ("a", VNum 1)] "a".
Proof.
  split; [reflexivity|]. split; [reflexivity|].
  split; [right; now left|].
  intros H. specialize (H (VNum 0) eq_refl). destruct H as [_ H].
  destruct (H eq_refl) as [v Hin].
  cbn in Hin. destruct Hin as [Heq|[]]. discriminate.
Qed.

(** C2 (change-only emission), amended.  In a store that has not been torn
    down, take a mutation that computes the update [u] and a candidate field
    [f] that reconciliation gets to, that is, [f] and every field of [u]
    enumerated before it has a Field Cell (every candidate does when [u]
    names fields of the initial state only).  Then the Field Cell of [f]
    emits during the call if and only if the published value of [f] is
    [!==] to the value the cell held, and what it emits is that published
    value. *)
Theorem change_only_emission (m : mutation) (st : store) (u : State) (f : string) :
  live st ->
  computed_update m st = Normal u ->
  reaches (state st) (own_keys u) f = true ->
  emits_iff_changed m st u f /\
  forall v, In (FieldNext f v) (trace (mutate m st)) ->
            v = get_prop (published m st u) f.
Proof.
  intros Hlive Hu Hreach. split.
  - intros old Hold. rewrite mutate_unfold, Hu. cbn.
    unfold cell_value in Hold.
    destruct (obj_find f (state st)) as [b|] eqn:Hb; [|discriminate].
    cbn in Hold. injection Hold as <-.
    rewrite <- (reconcile_emits (published m st u) (own_keys u)
                  (publish (published m st u) st) f b Hreach Hb
                  (live_cell st f b Hlive Hb)).
    unfold cell_emits. split; intros [v Hin]; exists v.
    + apply in_app_iff in Hin. destruct Hin as [Hin|Hin]; [|assumption].
      exfalso. apply (state_events_no_field (published m st u) st f). now exists v.
    + apply in_app_iff. now right.
  - intros v Hin. rewrite mutate_unfold, Hu in Hin. cbn in Hin.
    apply in_app_iff in Hin. destruct Hin as [Hin|Hin].
    + exfalso. apply (state_events_no_field (published m st u) st f). now exists v.
    + apply reconcile_trace in Hin. destruct Hin as [k [_ Heq]]. congruence.
Qed.

Lemma change_only_emission_witness :
  emits_iff_changed set_b_7 (constructor a_and_b)
    [("a", VNum 0); ("b", VNum 7)] "b" /\
  forall v, In (FieldNext "b" v) (trace (mutate set_b_7 (constructor a_and_b))) ->
            v = VNum 7.
Proof.
  apply (change_only_emission set_b_7 (constructor a_and_b)
           [("a", VNum 0); ("b", VNum 7)] "b"); reflexivity.
Defined.

(** C10 (unknown field: publish, then throw).  Take a store built from
    [init] and brought anywhere by earlier mutations, and a mutation whose
    computed update [u] has a field [k] that [init] did not have.  The call
    delivers the new snapshot on the snapshot stream first and then throws a
    [TypeError]; the snapshot stays published, and it has the field [k]
    while there is no Field Cell for [k]. *)
Theorem unknown_field_publishes_then_throws
  (init : State) (ms : list mutation) (m : mutation) (u : State) (k : string) :
  computed_update m (reached init ms) = Normal u ->
  In k (own_keys u) ->
  ~ In k (own_keys init) ->
  outcome (mutate m (reached init ms)) = Throw TypeError /\
  (exists fields,
     trace (mutate m (reached init ms))
     = StateNext (published m (reached init ms) u) :: fields) /\
  snapshot (store_of (mutate m (reached init ms))) = published m (reached init ms) u /\
  has_own k (snapshot (store_of (mutate m (reached init ms)))) = true /\
  cell_value (store_of (mutate m (reached init ms))) k = None.
Proof.
  remember (reached init ms) as st eqn:Hst. intros Hu Hk Hout.
  assert (Hlive : live st) by (rewrite Hst; apply live_after_all, live_constructor).
  assert (Hnocell : ~ In k (own_keys (state st))).
  { rewrite Hst. unfold reached. rewrite after_all_keys, constructor_keys. exact Hout. }
  assert (Hsnap : snapshot (store_of (mutate m st)) = published m st u)
    by (apply (after_snapshot m st u Hu)).
  repeat split.
  - rewrite mutate_unfold, Hu. cbn. rewrite reconcile_outcome.
    destruct (forallb _ _) eqn:E; [|reflexivity]. exfalso.
    rewrite forallb_forall in E. apply Hnocell. apply has_own_In.
    now apply (E k).
  - rewrite mutate_unfold, Hu. cbn. rewrite publish_events_live by assumption.
    eexists. reflexivity.
  - exact Hsnap.
  - rewrite Hsnap. apply has_own_In.
    destruct m as [a|a|fn p]; cbn [published]; try assumption.
    unfold spread2. apply own_keys_assign_In. now right.
  - unfold cell_value.
    change (store_of (mutate m st)) with (after m st).
    assert (Hn : obj_find k (state (after m st)) = None)
      by (apply obj_find_None; now rewrite after_keys).
    now rewrite Hn.
Qed.

Lemma unknown_field_publishes_then_throws_witness :
  outcome (mutate patch_z (constructor only_a)) = Throw TypeError /\
  (exists fields,
     trace (mutate patch_z (constructor only_a))
     = StateNext [("a", VNum 0); ("z", VNum 1)] :: fields) /\
  snapshot (store_of (mutate patch_z (constructor only_a)))
  = [("a", VNum 0); ("z", VNum 1)] /\
  has_own "z" (snapshot (store_of (mutate patch_z (constructor only_a)))) = true /\
  cell_value (store_of (mutate patch_z (constructor only_a))) "z" = None.
Proof.
  apply (unknown_field_publishes_then_throws only_a [] patch_z [("z", VNum 1)] "z").
  - reflexivity.
  - now left.
  - cbn. intros [H|[]]. discriminate.
Defined.

(** C1 as stated fails: the update [{a: 1}] names only a field of the
    initial state [{a: 0, b: 0}], yet after [setState({a: 1})] the Field Cell
    of [b] still holds [0] while the snapshot has no [b] any more. *)
Lemma consistency_broken_by_dropped_field :
  obj_wf a_and_b = true /\
  updates_within (own_keys a_and_b) [set_a_only] (constructor a_and_b) = true /\
  ~ consistent (reached a_and_b (firstn 1 [set_a_only])).
Proof.
  split; [reflexivity|]. split; [reflexivity|].
  intros H. specialize (H "b" (VNum 0) eq_refl). discriminate.
Qed.

(** C1 (consistency invariant), amended.  Start from any initial state and
    run any sequence of [setState], [patchState] and updater calls in which
    every computed update names fields of the initial state only.  After
    each call of the sequence, for every field that the current snapshot
    has, the Field Cell of that field holds the very value the field has in
    the snapshot.  If moreover every state that replaces the whole snapshot
    ([setState], updater) still has all the fields of the initial state,
    this is so for every Field Cell. *)
Theorem consistency_invariant (init : State) (ms : list mutation) :
  obj_wf init = true ->
  updates_within (own_keys init) ms (constructor init) = true ->
  forall n,
    consistent_on_snapshot (reached init (firstn n ms)) /\
    (replacements_cover (own_keys init) ms (constructor init) = true ->
     consistent (reached init (firstn n ms))).
Proof.
  intros Hwf Hw n.
  destruct (well_kept_run (own_keys init) ms (constructor init)
              (well_kept_constructor init Hwf) Hw n) as [Hkeys [_ Hcons]].
  split; [exact Hcons|].
  intros Hc key v Hv. apply Hcons; [|exact Hv].
  apply (covers_run (own_keys init) ms (constructor init)); try assumption.
  - intros k Hk. exact Hk.
  - apply Hkeys. unfold cell_value in Hv.
    destruct (obj_find key _) eqn:E; [|discriminate].
    eapply obj_find_Some_In; eassumption.
Qed.

Lemma consistency_invariant_witness :
  consistent_on_snapshot (reached a_and_b three_calls) /\
  consistent (reached a_and_b three_calls).
Proof.
  destruct (consistency_invariant a_and_b three_calls eq_refl eq_refl 3) as [H1 H2].
  split; [exact H1 | exact (H2 eq_refl)].
Defined.

(** C3 (patch scoping and frame).  In a store that has not been torn down
    and whose snapshot is a real object, [patchState] with the partial state
    [p] delivers the merged snapshot [{...snapshot, ...p}] first and leaves
    it published; every field that [p] does not name has in the merged
    snapshot the value it had before, its Field Cell is untouched and does
    not emit.  When [p] is the single field [{a: v}] and the cell of [a] held
    a value [!==] to [v], the call delivers exactly the merged snapshot and
    then [v] on the cell of [a]. *)
Theorem patchState_scoping (st : store) (arg : literal_or_fn) (p : State) :
  live st ->
  obj_wf (snapshot st) = true ->
  computed_update (PatchState arg) st = Normal p ->
  (exists fields,
     trace (patchState arg st) = StateNext (spread2 (snapshot st) p) :: fields) /\
  snapshot (store_of (patchState arg st)) = spread2 (snapshot st) p /\
  (forall k, ~ In k (own_keys p) ->
     get_prop (spread2 (snapshot st) p) k = get_prop (snapshot st) k /\
     obj_find k (state (store_of (patchState arg st))) = obj_find k (state st) /\
     ~ cell_emits k (trace (patchState arg st))) /\
  (forall a v old,
     p = [(a, v)] -> cell_value st a = Some old -> strict_neq v old = true ->
     trace (patchState arg st)
     = [StateNext (spread2 (snapshot st) p); FieldNext a v]).
Proof.
  intros Hlive Hwf Hp.
  set (r := patchState arg st). set (merged := spread2 (snapshot st) p).
  assert (Hr : r = (outcome (reconcile merged (own_keys p) (publish merged st)),
                    store_of (reconcile merged (own_keys p) (publish merged st)),
                    [StateNext merged]
                      ++ trace (reconcile merged (own_keys p) (publish merged st)))).
  { unfold r. change (patchState arg st) with (mutate (PatchState arg) st).
    rewrite mutate_unfold, Hp. cbn zeta.
    rewrite publish_events_live by assumption. reflexivity. }
  rewrite Hr. cbn [trace store_of fst snd]. repeat split.
  - eexists. reflexivity.
  - unfold snapshot. now rewrite reconcile_subject.
  - apply get_prop_spread2_other; [now apply keys_wf_NoDup | assumption].
  - now rewrite reconcile_other.
  - intros [v [Heq|Hin]]; [discriminate|].
    apply reconcile_trace in Hin. destruct Hin as [k' [Hk' Heq]].
    injection Heq as -> _. contradiction.
  - intros a v old -> Hold Hne.
    unfold cell_value in Hold.
    destruct (obj_find a (state st)) as [b|] eqn:Hb; [|discriminate].
    cbn in Hold. injection Hold as <-.
    assert (Hv : get_prop merged a = v).
    { unfold merged, get_prop, spread2, obj_assign. cbn [fold_left fst snd].
      now rewrite obj_find_set_same. }
    cbn [own_keys map fst].
    rewrite (reconcile_cons_found merged a [] (publish merged st) b Hb).
    cbn [trace snd]. rewrite reconcile_nil. cbn [trace snd].
    unfold touch_events. rewrite Hv, Hne, (live_cell st a b Hlive Hb). reflexivity.
Qed.

Lemma patchState_scoping_witness :
  trace (patchState (Literal [("a", VNum 1)]) (constructor a_and_b))
  = [StateNext [("a", VNum 1); ("b", VNum 0)]; FieldNext "a" (VNum 1)] /\
  ~ cell_emits "b" (trace (patchState (Literal [("a", VNum 1)]) (constructor a_and_b))) /\
  snapshot (store_of (patchState (Literal [("a", VNum 1)]) (constructor a_and_b)))
  = [("a", VNum 1); ("b", VNum 0)].
Proof.
  destruct (patchState_scoping (constructor a_and_b)
              (Literal [("a", VNum 1)]) [("a", VNum 1)]
              eq_refl eq_refl eq_refl) as [_ [Hsnap [Hframe Hone]]].
  split; [|split].
  - exact (Hone "a" (VNum 1) (VNum 0) eq_refl eq_refl eq_refl).
  - apply (Hframe "b"). cbn. intros [H|[]]. discriminate.
  - exact Hsnap.
Defined.

(** C7 (input of the effect runner), as the code has it.  The callable made
    by [effect] tests its argument for truthiness, so the literals [0], the
    empty string and [false] are fed to the effect as [EMPTY], which sends
    no value, exactly like a left-out argument; a truthy literal such as [5]
    is sent once, and a stream is passed on as it is.  The effect function
    is subscribed on the source so chosen. *)
Theorem effect_static_falsy_feeds_EMPTY :
  effect_source (Static (VNum 0)) = EMPTY /\
  effect_source (Static (VStr EmptyString)) = EMPTY /\
  effect_source (Static (VBool false)) = EMPTY /\
  effect_source omitted = EMPTY /\
  values_of (@EMPTY value) = [] /\
  values_of (effect_source (Static (VNum 5))) = [VNum 5] /\
  (forall s, effect_source (Source s) = s) /\
  (forall effectFn arg st,
     destroyRef (store_of (effect effectFn arg st))
     = destroyRef st ++ [effectFn (effect_source arg)]).
Proof. repeat split. Qed.

(** C8 (selector shape 3, a named record of streams).  For every record
    [selectorsObject] of streams, [select(selectorsObject)] subscribes to
    the streams of the record in the order of its keys, and its output is
    determined as follows: nothing is emitted before a delivery; a delivery
    [v] from the input at position [i] adds exactly one record when [i] is
    a position of the record and every position has delivered by then, and
    nothing otherwise; that record pairs the keys of [selectorsObject], in
    their order, with the latest value of each input.  Hence every emitted
    record has the keys of [selectorsObject] in the same order. *)
Theorem select_record_latest_values (selectorsObject : obj Stream) :
  obj_wf selectorsObject = true ->
  (forall st,
     select (SelectorsObject selectorsObject) st
     = (Normal (OfViewModel (select_record selectorsObject)), st, [])) /\
  inputs (select_record selectorsObject) = map snd selectorsObject /\
  emissions (select_record selectorsObject) [] = [] /\
  (forall ds i v,
     emissions (select_record selectorsObject) (ds ++ [(i, v)]) =
     emissions (select_record selectorsObject) ds ++
     (if Nat.ltb i (length selectorsObject)
         && forallb (fun j => is_some (last_delivered (ds ++ [(i, v)]) j))
              (seq 0 (length selectorsObject))
      then [latest_record selectorsObject (ds ++ [(i, v)])] else [])) /\
  (forall ds r,
     In r (emissions (select_record selectorsObject) ds) ->
     own_keys r = own_keys selectorsObject).
Proof.
  intros Hwf.
  set (view := select_record selectorsObject). set (n := length selectorsObject).
  assert (Hlast : forall ds i v,
     emissions view (ds ++ [(i, v)]) =
     emissions view ds ++
     (if Nat.ltb i n
         && forallb (fun j => is_some (last_delivered (ds ++ [(i, v)]) j)) (seq 0 n)
      then [latest_record selectorsObject (ds ++ [(i, v)])] else []))
    by (intros; now apply select_record_last).
  repeat split; try assumption.
  intros ds. induction ds as [|[i v] ds IH] using rev_ind; intros r Hin.
  - destruct Hin.
  - rewrite Hlast in Hin. apply in_app_iff in Hin. destruct Hin as [Hin|Hin].
    + now apply IH.
    + destruct (_ && _); [|destruct Hin]. destruct Hin as [<-|[]].
      apply own_keys_latest_record.
Qed.

Lemma select_record_latest_values_witness :
  emissions (select_record x_and_y) [(0, VStr "a"); (1, VNum 1)]
  = [[("x", VStr "a"); ("y", VNum 1)]] /\
  emissions (select_record x_and_y) [(0, VStr "a"); (1, VNum 1); (0, VStr "b")]
  = emissions (select_record x_and_y) [(0, VStr "a"); (1, VNum 1)]
    ++ [[("x", VStr "b"); ("y", VNum 1)]].
Proof.
  destruct (select_record_latest_values x_and_y eq_refl)
    as [_ [_ [_ [Hlast _]]]].
  split.
  - exact (Hlast [(0, VStr "a")] 1 (VNum 1)).
  - exact (Hlast [(0, VStr "a"); (1, VNum 1)] 0 (VStr "b")).
Defined.

(** C9 (the two stores agree).  Build a [ComponentStore] and a [CustomStore]
    from the same initial state and make the same calls on both, taken from
    the operations they share: [setState], [patchState], updater callables,
    [select] with a single function, reading [state$], and teardown.  Call by
    call they return or throw alike and deliver the same notifications on the
    snapshot stream and on the Field Cells, and they end holding the same
    subjects. *)
Theorem custom_store_agrees (init : State) (os : list op) :
  fst (run_ops component_op os (ComponentStore.constructor init))
  = fst (run_ops custom_op os (CustomStore.constructor init)) /\
  same_store (snd (run_ops component_op os (ComponentStore.constructor init)))
             (snd (run_ops custom_op os (CustomStore.constructor init))).
Proof.
  apply sim_run. split; reflexivity.
Qed.

End Properties.

(* ================================================================== *)
(** ** Further properties: teardown *)
(* ================================================================== *)

Section Teardown.
Import ComponentStore.

Lemma store_eta st : mkStore (state st) (stateSubject st) (destroyRef st) = st.
Proof. now destruct st. Qed.

Lemma obj_replace_same {A} key (a : A) (o : obj A) :
  obj_find key o = Some a -> obj_replace key a o = o.
Proof.
  induction o as [|[k c] o IH]; cbn; [reflexivity|].
  destruct (String.eqb_spec k key) as [->|Hne].
  - intros H. injection H as ->. reflexivity.
  - intros H. now rewrite IH.
Qed.

Lemma complete_cells_nil st : complete_cells [] st = (Normal tt, st, []).
Proof. reflexivity. Qed.

Lemma complete_cells_cons k ks st b :
  obj_find k (state st) = Some b ->
  complete_cells (k :: ks) st =
  let st1 := mkStore (obj_replace k (mkSubject (_value b) true) (state st))
               (stateSubject st) (destroyRef st) in
  let r := complete_cells ks st1 in
  (outcome r, store_of r,
   (if isStopped b then [] else [FieldComplete k]) ++ trace r).
Proof.
  intros Hb. unfold complete_cells. cbn [for_in].
  unfold bind at 1. unfold state_complete at 1. rewrite Hb. cbn.
  match goal with
  | |- context [for_in ?l ?body ?s] => destruct (for_in l body s) as [[r st'] t]
  end.
  destruct (isStopped b); reflexivity.
Qed.

(** The loop of [ngOnDestroy] over keys that all have a cell. *)
Lemma complete_cells_spec ks st :
  (forall k, In k ks -> In k (own_keys (state st))) ->
  let r := complete_cells ks st in
  outcome r = Normal tt /\
  stateSubject (store_of r) = stateSubject st /\
  destroyRef (store_of r) = destroyRef st /\
  own_keys (state (store_of r)) = own_keys (state st) /\
  (forall k, option_map _value (obj_find k (state (store_of r)))
             = option_map _value (obj_find k (state st))) /\
  (forall k b, obj_find k (state (store_of r)) = Some b ->
               isStopped b = true <->
               (In k ks \/ exists b0, obj_find k (state st) = Some b0 /\ isStopped b0 = true)).
Proof.
  revert st. induction ks as [|k ks IH]; intros st Hin.
  - cbn. repeat split; try reflexivity.
    + intros Hs. right. now exists b.
    + intros [[]|[b0 [H0 H1]]]. congruence.
  - assert (Hk : In k (own_keys (state st))) by (apply Hin; now left).
    apply has_own_In in Hk. unfold has_own in Hk.
    destruct (obj_find k (state st)) as [b|] eqn:Hb; [|discriminate].
    rewrite (complete_cells_cons k ks st b Hb). cbn zeta.
    set (st1 := mkStore (obj_replace k (mkSubject (_value b) true) (state st))
                  (stateSubject st) (destroyRef st)).
    assert (Hkeys1 : own_keys (state st1) = own_keys (state st))
      by (apply own_keys_replace).
    destruct (IH st1) as [Ho [Hs [Hd [Hkeys [Hval Hstop]]]]].
    { intros j Hj. rewrite Hkeys1. apply Hin. now right. }
    cbn [outcome store_of trace fst snd].
    split; [exact Ho|]. split; [exact Hs|]. split; [exact Hd|].
    split; [now rewrite Hkeys|]. split.
    + intros j. rewrite Hval. cbn [st1 state].
      destruct (string_dec j k) as [->|Hne].
      * erewrite obj_find_replace_same by eassumption. now rewrite Hb.
      * now rewrite obj_find_replace_other.
    + intros j c Hc. rewrite (Hstop j c Hc). cbn [st1 state].
      destruct (string_dec j k) as [->|Hne].
      * erewrite obj_find_replace_same by eassumption. split.
        -- intros _. left. now left.
        -- intros _. right. eexists. split; [reflexivity | reflexivity].
      * rewrite obj_find_replace_other by assumption. split.
        -- intros [H|H]; [left; now right | now right].
        -- intros [[H|H]|H]; [congruence | now left | now right].
Qed.


(** On cells that are all completed already the loop changes nothing. *)
Lemma complete_cells_stopped ks st :
  (forall k, In k ks -> exists b, obj_find k (state st) = Some b /\ isStopped b = true) ->
  complete_cells ks st = (Normal tt, st, []).
Proof.
  induction ks as [|k ks IH]; intros Hall; [reflexivity|].
  destruct (Hall k (or_introl eq_refl)) as [b [Hb Hs]].
  rewrite (complete_cells_cons k ks st b Hb). cbn zeta.
  assert (Hsame : mkSubject (_value b) true = b) by (destruct b; cbn in Hs; now subst).
  rewrite Hsame, (obj_replace_same k b (state st) Hb), store_eta, Hs.
  rewrite IH by (intros j Hj; apply Hall; now right). reflexivity.
Qed.

Lemma ngOnDestroy_unfold st :
  ngOnDestroy st =
  let r := complete_cells (own_keys (state st)) st in
  match outcome r with
  | Normal _ =>
      (Normal tt,
       mkStore (state (store_of r))
         (mkSubject (_value (stateSubject (store_of r))) true)
         (destroyRef (store_of r)),
       trace r ++ (if isStopped (stateSubject (store_of r)) then []
                   else [StateComplete]))
  | Throw e => (Throw e, store_of r, trace r)
  end.
Proof.
  unfold ngOnDestroy, complete_cells, bind, this_state, stateSubject_complete. cbn.
  destruct (for_in (own_keys (state st)) state_complete st) as [[[[]|e] st'] t]; cbn.
  - destruct (isStopped (stateSubject st')); cbn; now rewrite ?app_nil_r.
  - reflexivity.
Qed.

(** Teardown on any store: it returns, completes every subject, and keeps
    every value and the shape of the table. *)
Lemma torn_down_spec st :
  outcome (ngOnDestroy st) = Normal tt /\
  all_stopped (torn_down st) /\
  snapshot (torn_down st) = snapshot st /\
  own_keys (state (torn_down st)) = own_keys (state st) /\
  destroyRef (torn_down st) = destroyRef st /\
  (forall k, cell_value (torn_down st) k = cell_value st k).
Proof.
  unfold torn_down. rewrite ngOnDestroy_unfold. cbn zeta.
  destruct (complete_cells_spec (own_keys (state st)) st (fun k H => H))
    as [Ho [Hs [Hd [Hkeys [Hval Hstop]]]]].
  rewrite Ho. cbn [outcome store_of fst snd].
  split; [reflexivity|]. split; [|split; [|split; [|split]]].
  - split; [reflexivity|]. cbn [state]. intros k b Hb.
    apply (Hstop k b Hb). left. rewrite <- Hkeys.
    eapply obj_find_Some_In; eassumption.
  - unfold snapshot. cbn. now rewrite Hs.
  - exact Hkeys.
  - exact Hd.
  - intros k. unfold cell_value. cbn [state]. apply Hval.
Qed.

End Teardown.

Section Construction.
Import ComponentStore.








End Construction.

Section Silence.
Import ComponentStore.

Lemma reconcile_silent latest ks st :
  (forall k b, obj_find k (state st) = Some b -> isStopped b = true) ->
  trace (reconcile latest ks st) = [].
Proof.
  revert st. induction ks as [|k ks IH]; intros st Hall; [reflexivity|].
  destruct (obj_find k (state st)) as [b|] eqn:Hb.
  - rewrite (reconcile_cons_found latest k ks st b Hb). cbn zeta. cbn [trace snd].
    unfold touch_events. rewrite (Hall k b Hb), Bool.andb_false_r. cbn [app].
    apply IH. intros j c Hc.
    pose proof (touch_stopped latest k b st j Hb) as Hst. rewrite Hc in Hst. cbn in Hst.
    destruct (obj_find j (state st)) as [c0|] eqn:Hc0; [|discriminate].
    cbn in Hst. injection Hst as ->. now apply (Hall j c0).
  - now rewrite (reconcile_cons_missing latest k ks st Hb).
Qed.

Lemma all_stopped_after m st : all_stopped st -> all_stopped (after m st).
Proof.
  intros [Hs Hc]. unfold after. rewrite mutate_unfold.
  destruct (computed_update m st) as [u|e]; cbn; [|now split].
  split.
  - now rewrite reconcile_subject.
  - intros k b Hb.
    pose proof (reconcile_stopped (published m st u) (own_keys u)
                  (publish (published m st u) st) k) as Hst.
    rewrite Hb in Hst. cbn in Hst.
    destruct (obj_find k (state st)) as [c|] eqn:E; [|discriminate].
    cbn in Hst. injection Hst as ->. now apply (Hc k c).
Qed.

Lemma all_stopped_after_all ms st : all_stopped st -> all_stopped (after_all ms st).
Proof.
  revert st. induction ms as [|m ms IH]; intros st H; cbn; [assumption|].
  apply IH. now apply all_stopped_after.
Qed.

Lemma mutate_silent m st : all_stopped st -> trace (mutate m st) = [].
Proof.
  intros [Hs Hc]. rewrite mutate_unfold.
  destruct (computed_update m st) as [u|e]; cbn; [|reflexivity].
  unfold publish_events. rewrite Hs. cbn.
  now apply reconcile_silent.
Qed.

End Silence.

Section Reads.
Import ComponentStore.

Lemma after_next_snapshot m st : snapshot (after m st) = next_snapshot m (snapshot st).
Proof.
  destruct (computed_update m st) as [u|e] eqn:Hu.
  - rewrite (after_snapshot m st u Hu).
    destruct m as [[s|f]|[p|f]|f p]; cbn in Hu |- *; unfold snapshot;
      try (rewrite Hu); congruence.
  - rewrite (after_failed m st e Hu).
    destruct m as [[s|f]|[p|f]|f p]; cbn in Hu |- *; unfold snapshot in *;
      try discriminate; now rewrite Hu.
Qed.

Lemma cell_known_iff init ms k :
  is_some (cell_value (reached init ms) k) = mem k (own_keys init).
Proof.
  unfold cell_value.
  destruct (mem k (own_keys init)) eqn:E.
  - apply mem_In in E. apply constructor_keys in E.
    unfold reached. rewrite <- (after_all_keys ms) in E.
    apply has_own_In in E. unfold has_own in E.
    now destruct (obj_find k _).
  - destruct (obj_find k _) eqn:Hb; [|reflexivity]. exfalso.
    apply obj_find_Some_In in Hb. unfold reached in Hb.
    rewrite after_all_keys in Hb. apply constructor_keys in Hb.
    apply mem_In in Hb. congruence.
Qed.

End Reads.

Section Combining.

(** One more delivery to [combineLatest] over [n] inputs. *)
Lemma combineLatest_last n ds i v :
  combineLatest_run (repeat None n) (ds ++ [(i, v)]) =
  combineLatest_run (repeat None n) ds ++
  (if Nat.ltb i n && all_delivered n (ds ++ [(i, v)])
   then [latest_values n (ds ++ [(i, v)])] else []).
Proof.
  rewrite combineLatest_run_last. f_equal.
  pose proof (combineLatest_state_latest n (ds ++ [(i, v)])) as Hst.
  rewrite combineLatest_state_last in Hst.
  unfold combineLatest_step in *.
  rewrite combineLatest_state_latest in *.
  rewrite length_map, length_seq in *. cbn [fst snd] in *.
  destruct (Nat.ltb i n); cbn [fst snd andb] in *; [|reflexivity].
  rewrite Hst, all_present_map. unfold all_delivered, latest_values.
  now destruct (forallb _ _).
Qed.

Lemma all_delivered_more n ds d :
  all_delivered n ds = true -> all_delivered n (ds ++ [d]) = true.
Proof.
  unfold all_delivered. rewrite !forallb_forall. intros H j Hj.
  destruct d as [i v]. rewrite last_delivered_last.
  destruct (Nat.eqb i j); [reflexivity | now apply H].
Qed.

(** [combineLatest] emits nothing while an input has yet to deliver, and
    never when it has no input at all. *)
Lemma combineLatest_gate n ds :
  Nat.eqb n 0 || negb (all_delivered n ds) = true ->
  combineLatest_run (repeat None n) ds = [].
Proof.
  induction ds as [|[i v] ds IH] using rev_ind; intros H; [reflexivity|].
  rewrite combineLatest_last.
  destruct (Nat.eqb_spec n 0) as [->|Hn]; cbn [orb] in *.
  - rewrite IH by reflexivity. reflexivity.
  - apply Bool.negb_true_iff in H. rewrite H, Bool.andb_false_r, app_nil_r.
    apply IH. apply Bool.negb_true_iff.
    destruct (all_delivered n ds) eqn:E; [|reflexivity].
    apply (all_delivered_more n ds (i, v)) in E. congruence.
Qed.

Lemma split_config_spec config :
  forall selectors selectFn,
    split_config config selectors selectFn =
    (selectors ++ streams_of config,
     match last_function config with
     | Some g => Some g
     | None => selectFn
     end).
Proof.
  induction config as [|[s|f] config IH]; intros selectors selectFn; cbn.
  - now rewrite app_nil_r.
  - rewrite IH, <- app_assoc. reflexivity.
  - rewrite IH. now destruct (last_function config).
Qed.

End Combining.

Section ExactTraces.
Import ComponentStore.

(** With distinct candidates that all have a live cell, the loop emits the
    changed ones in the order of enumeration. *)
Lemma reconcile_trace_exact latest ks st :
  NoDup ks ->
  (forall k, In k ks -> exists b, obj_find k (state st) = Some b /\ isStopped b = false) ->
  trace (reconcile latest ks st)
  = map (fun k => FieldNext k (get_prop latest k)) (changed_fields st latest ks).
Proof.
  revert st. induction ks as [|k ks IH]; intros st Hnd Hcells; [reflexivity|].
  destruct (Hcells k (or_introl eq_refl)) as [b [Hb Hs]].
  inversion Hnd as [|? ? Hk Hnd']; subst.
  rewrite (reconcile_cons_found latest k ks st b Hb). cbn zeta. cbn [trace snd].
  unfold changed_fields. cbn [filter]. unfold cell_value at 1. rewrite Hb. cbn [option_map or_undefined].
  assert (Hrest : trace (reconcile latest ks (touch latest k b st))
                  = map (fun j => FieldNext j (get_prop latest j))
                      (changed_fields st latest ks)).
  { rewrite IH; [|assumption|].
    - f_equal. unfold changed_fields. apply filter_ext_in. intros j Hj.
      unfold cell_value. rewrite touch_other; [reflexivity|]. intros ->. contradiction.
    - intros j Hj. destruct (Hcells j (or_intror Hj)) as [c [Hc Hcs]].
      exists c. split; [|assumption].
      rewrite touch_other; [assumption|]. intros ->. contradiction. }
  rewrite Hrest. unfold touch_events, changed_fields. rewrite Hs.
  destruct (strict_neq (get_prop latest k) (getValue b)); reflexivity.
Qed.

(** When no candidate's cell differs from the snapshot, the loop returns
    without a change. *)
Lemma reconcile_fixpoint latest ks st :
  (forall k, In k ks ->
     exists b, obj_find k (state st) = Some b /\
               strict_neq (get_prop latest k) (getValue b) = false) ->
  reconcile latest ks st = (Normal tt, st, []).
Proof.
  induction ks as [|k ks IH]; intros Hall; [reflexivity|].
  destruct (Hall k (or_introl eq_refl)) as [b [Hb Hs]].
  rewrite (reconcile_cons_found latest k ks st b Hb). cbn zeta.
  unfold touch, touch_events. rewrite Hs. cbn [andb app].
  rewrite IH by (intros j Hj; apply Hall; now right). reflexivity.
Qed.

Lemma no_NaN_get s k : no_NaN s = true -> get_prop s k <> VNaN.
Proof.
  unfold no_NaN, get_prop. intros H.
  destruct (obj_find k s) as [v|] eqn:E; [|discriminate].
  apply obj_find_In_entry in E. rewrite forallb_forall in H.
  apply H in E. cbn in E. intros ->. discriminate.
Qed.

Lemma publish_same st :
  publish (snapshot st) st = st.
Proof. destruct st as [t [v s] d]. reflexivity. Qed.

(** Assigning again what an object already holds leaves it. *)
Lemma obj_assign_same {A} (src target : obj A) :
  (forall k a, In (k, a) src -> obj_find k target = Some a) ->
  obj_assign target src = target.
Proof.
  unfold obj_assign. induction src as [|[k a] src IH]; cbn; intros H; [reflexivity|].
  assert (Hk : obj_find k target = Some a) by (apply H; now left).
  unfold obj_set, has_own. rewrite Hk, (obj_replace_same k a target Hk).
  apply IH. intros j b Hj. apply H. now right.
Qed.

Lemma obj_find_entry_NoDup {A} k (a : A) (o : obj A) :
  NoDup (own_keys o) -> In (k, a) o -> obj_find k o = Some a.
Proof.
  induction o as [|[j b] o IH]; cbn; intros Hnd Hin; [destruct Hin|].
  inversion Hnd as [|? ? Hj Hnd']; subst.
  destruct Hin as [Heq|Hin].
  - injection Heq as -> ->. now rewrite String.eqb_refl.
  - destruct (String.eqb_spec j k) as [->|Hne].
    + exfalso. apply Hj. change k with (fst (k, a)). now apply in_map.
    + now apply IH.
Qed.

(** Merging a patch twice is merging it once. *)
Lemma spread2_twice (s p : State) :
  obj_wf p = true -> spread2 (spread2 s p) p = spread2 s p.
Proof.
  intros Hp. unfold spread2 at 1.
  rewrite (obj_copy (spread2 s p)) by apply obj_wf_spread2.
  apply obj_assign_same. intros k a Hin.
  unfold spread2. rewrite obj_find_assign by (now apply keys_wf_NoDup).
  now rewrite (obj_find_entry_NoDup k a p (keys_wf_NoDup _ Hp) Hin).
Qed.



End ExactTraces.

(* ================================================================== *)
(** ** Further properties of the code *)
(* ================================================================== *)

Section MoreProperties.
Import ComponentStore.







(** X4 (double teardown).  Calling [ngOnDestroy] on a store that has been
    torn down returns normally, delivers nothing and changes nothing. *)
Theorem teardown_twice_is_a_no_op (st : store) :
  ngOnDestroy (torn_down st) = (Normal tt, torn_down st, []).
Proof.
  destruct (torn_down_spec st) as [_ [[Hs Hc] _]].
  rewrite ngOnDestroy_unfold. cbn zeta.
  rewrite complete_cells_stopped.
  - cbn [outcome store_of trace fst snd]. rewrite Hs. cbn [app].
    assert (Hsame : mkSubject (_value (stateSubject (torn_down st))) true
                    = stateSubject (torn_down st))
      by (destruct (stateSubject (torn_down st)); cbn in Hs; now subst).
    now rewrite Hsame, store_eta.
  - intros k Hk. apply has_own_In in Hk. unfold has_own in Hk.
    destruct (obj_find k (state (torn_down st))) as [b|] eqn:Hb; [|discriminate].
    exists b. split; [reflexivity|]. now apply (Hc k b).
Qed.

(** X5 (silence after teardown).  Once a store has been torn down, no
    later [setState], [patchState] or updater call delivers anything, on the
    snapshot stream or on any Field Cell, and every subject stays
    completed. *)
Theorem nothing_delivered_after_teardown (st : store) (ms : list mutation) (m : mutation) :
  trace (mutate m (after_all ms (torn_down st))) = [] /\
  all_stopped (after m (after_all ms (torn_down st))).
Proof.
  assert (H : all_stopped (after_all ms (torn_down st))).
  { apply all_stopped_after_all. now destruct (torn_down_spec st) as [_ [H _]]. }
  split; [now apply mutate_silent | now apply all_stopped_after].
Qed.

(** X6 (the snapshot is a fold of the calls).  After any sequence of
    [setState], [patchState] and updater calls on any store, the current
    snapshot is what the calls compute one after the other from the
    snapshot they find: a literal state replaces it, a patch is merged onto
    it, a function is applied to it, and a call whose function throws leaves
    it.  Failed reconciliations and teardown do not change this. *)
Theorem snapshot_is_a_fold_of_the_calls (st : store) (ms : list mutation) :
  snapshot (after_all ms st) = fold_left (fun s m => next_snapshot m s) ms (snapshot st).
Proof.
  revert st. induction ms as [|m ms IH]; intros st; cbn; [reflexivity|].
  now rewrite IH, after_next_snapshot.
Qed.

(** X7 ([get] reads the last published snapshot).  After any mutation,
    [get()] returns the snapshot that call computed and [get(getFn)] returns
    [getFn] of it, or throws what [getFn] throws; either way [get] delivers
    nothing and leaves the store as it found it. *)
Theorem get_reads_the_published_snapshot {Output : Type}
  (m : mutation) (st : store) (getFn : option (State -> completion Output)) :
  get getFn (after m st) =
  (match getFn with
   | None => Normal (inl (next_snapshot m (snapshot st)))
   | Some f =>
       match f (next_snapshot m (snapshot st)) with
       | Normal r => Normal (inr r)
       | Throw e => Throw e
       end
   end, after m st, []).
Proof.
  rewrite <- after_next_snapshot.
  unfold get, frozenState, stateSubject_getValue, bind, ret, call, Object_freeze, snapshot.
  destruct getFn as [f|]; cbn; [|reflexivity].
  now destruct (f _).
Qed.

(** X8 ([select] of one field).  On a store built from [init] and taken
    through any mutations, [select(s => s[k])] succeeds exactly when [k] is
    a field of [init]: it then hands out the live Field Cell of [k] with
    the value the cell holds; for any other [k] it throws a [TypeError].
    In both cases nothing is delivered and the store is unchanged. *)
Theorem select_field_succeeds_iff_known (init : State) (ms : list mutation) (k : string) :
  is_some (cell_value (reached init ms) k) = mem k (own_keys init) /\
  select (SelectFn (obj_find k)) (reached init ms) =
  (match cell_value (reached init ms) k with
   | Some v => Normal (OfField (mkSubject v false))
   | None => Throw TypeError
   end, reached init ms, []).
Proof.
  split; [apply cell_known_iff|].
  assert (Hlive : live (reached init ms)) by apply live_after_all, live_constructor.
  unfold select, this_state, bind, call, ret, cell_value, asObservable. cbn.
  destruct (obj_find k (state (reached init ms))) as [b|] eqn:Hb; cbn; [|reflexivity].
  pose proof (live_cell _ k b Hlive Hb) as Hs.
  destruct b as [v s]. cbn in Hs. subst s. reflexivity.
Qed.

(** X9 ([select] of streams and a combining function).  When the call has
    a function among its arguments, the result subscribes to the streams of
    the call in their order, emits nothing before a delivery, and on every
    delivery from one of its streams made when all of them have delivered it
    emits once more: the last function of the call applied to the latest
    value of each stream, in order.  Other deliveries add nothing. *)
Theorem positional_select_latest_values (config : list selector_or_fn)
  (f : list value -> value) :
  last_function config = Some f ->
  inputs (select_positional config) = streams_of config /\
  emissions (select_positional config) [] = [] /\
  (forall ds i v,
     emissions (select_positional config) (ds ++ [(i, v)]) =
     emissions (select_positional config) ds ++
     (if Nat.ltb i (length (streams_of config))
         && all_delivered (length (streams_of config)) (ds ++ [(i, v)])
      then [Normal (f (latest_values (length (streams_of config)) (ds ++ [(i, v)])))]
      else [])).
Proof.
  intros Hf. unfold select_positional.
  rewrite split_config_spec, Hf. cbn [app inputs emissions combineLatest].
  repeat split. intros ds i v.
  rewrite combineLatest_last, map_app. f_equal.
  now destruct (_ && _).
Qed.

Lemma positional_select_latest_values_witness :
  emissions (select_positional x_y_plus) [(0, VNum 1); (1, VNum 10)] = [Normal (VNum 11)] /\
  emissions (select_positional x_y_plus) [(0, VNum 1); (1, VNum 10); (0, VNum 2)]
  = emissions (select_positional x_y_plus) [(0, VNum 1); (1, VNum 10)]
    ++ [Normal (VNum 12)].
Proof.
  destruct (positional_select_latest_values x_y_plus add_numbers eq_refl)
    as [_ [_ Hlast]].
  split.
  - exact (Hlast [(0, VNum 1)] 1 (VNum 10)).
  - exact (Hlast [(0, VNum 1); (1, VNum 10)] 0 (VNum 2)).
Defined.

(** X10 (the view model waits for every stream).  The stream made by
    [select] from a record of streams emits nothing as long as one of the
    streams has not delivered, however often the others deliver; made from
    the empty record it never emits. *)
Theorem view_model_waits_for_every_stream (selectorsObject : obj Stream)
  (ds : list (nat * value)) :
  Nat.eqb (length selectorsObject) 0
  || negb (all_delivered (length selectorsObject) ds) = true ->
  emissions (select_record selectorsObject) ds = [].
Proof.
  intros H. unfold select_record, pipe_map, combineLatest. cbn [emissions].
  rewrite length_map, combineLatest_gate by assumption. reflexivity.
Qed.

Lemma view_model_waits_for_every_stream_witness :
  emissions (select_record x_and_y) [(0, VStr "a"); (0, VStr "b"); (0, VStr "c")] = [] /\
  emissions (select_record []) [(0, VStr "a"); (1, VNum 1)] = [].
Proof.
  split.
  - apply (view_model_waits_for_every_stream x_and_y). reflexivity.
  - apply (view_model_waits_for_every_stream []). reflexivity.
Defined.

(** X11 (what a successful mutation delivers).  On a store that has not
    been torn down, a mutation whose computed update is a real object
    naming only fields that have a Field Cell returns normally and delivers
    the new snapshot followed by the new value of each candidate field whose
    value is [!==] to what its cell held, each once, in the order in which
    the update enumerates its fields, and nothing else. *)
Theorem mutation_trace_in_key_order (m : mutation) (st : store) (u : State) :
  live st ->
  computed_update m st = Normal u ->
  obj_wf u = true ->
  forallb (fun k => has_own k (state st)) (own_keys u) = true ->
  mutate m st =
  (Normal tt, after m st,
   StateNext (published m st u)
     :: map (fun k => FieldNext k (get_prop (published m st u) k))
          (changed_fields st (published m st u) (own_keys u))).
Proof.
  intros Hlive Hu Hwf Hknown. unfold after. rewrite mutate_unfold, Hu. cbn zeta.
  rewrite reconcile_outcome. cbn [publish state]. rewrite Hknown.
  rewrite publish_events_live by assumption. cbn [app store_of fst snd].
  f_equal. f_equal.
  rewrite reconcile_trace_exact.
  - reflexivity.
  - now apply keys_wf_NoDup.
  - intros k Hk. rewrite forallb_forall in Hknown. apply Hknown in Hk.
    unfold has_own in Hk. cbn [publish state].
    destruct (obj_find k (state st)) as [b|] eqn:Hb; [|discriminate].
    exists b. split; [reflexivity|]. now apply (live_cell st k b).
Qed.

Lemma mutation_trace_in_key_order_witness :
  mutate (SetState (Literal [("b", VNum 2); ("a", VNum 1)])) (constructor a_and_b) =
  (Normal tt,
   after (SetState (Literal [("b", VNum 2); ("a", VNum 1)])) (constructor a_and_b),
   [StateNext [("b", VNum 2); ("a", VNum 1)];
    FieldNext "b" (VNum 2); FieldNext "a" (VNum 1)]).
Proof.
  apply (mutation_trace_in_key_order
           (SetState (Literal [("b", VNum 2); ("a", VNum 1)]))
           (constructor a_and_b) [("b", VNum 2); ("a", VNum 1)]); reflexivity.
Defined.

(** X12 (a repeated [setState] notifies the snapshot stream only).  After
    [setState(s)] with a literal [s] whose fields all have a Field Cell and
    none of whose values is [NaN], calling [setState(s)] again returns
    normally, changes nothing in the store, and delivers [s] on the
    snapshot stream again but nothing on any Field Cell. *)
Theorem repeated_setState_emits_snapshot_only (st : store) (s : State) :
  live st ->
  forallb (fun k => has_own k (state st)) (own_keys s) = true ->
  no_NaN s = true ->
  mutate (SetState (Literal s)) (after (SetState (Literal s)) st) =
  (Normal tt, after (SetState (Literal s)) st, [StateNext s]).
Proof.
  intros Hlive Hknown Hnan.
  remember (after (SetState (Literal s)) st) as st1 eqn:E1.
  assert (Hsnap : snapshot st1 = s)
    by (rewrite E1; apply (after_snapshot (SetState (Literal s)) st s eq_refl)).
  assert (Hlive1 : live st1) by (rewrite E1; now apply live_after).
  assert (Hpub : publish s st1 = st1) by (rewrite <- Hsnap at 1; apply publish_same).
  rewrite mutate_unfold. cbn [computed_update published]. cbn zeta.
  rewrite Hpub, publish_events_live by assumption.
  rewrite reconcile_fixpoint; [reflexivity|].
  intros k Hk.
  pose proof (reconcile_values s (own_keys s) (publish s st) k Hknown Hk) as Hv.
  assert (Hst1 : st1 = store_of (reconcile s (own_keys s) (publish s st)))
    by (rewrite E1; apply (after_unfold (SetState (Literal s)) st s eq_refl)).
  rewrite <- Hst1 in Hv.
  destruct (obj_find k (state st1)) as [b|] eqn:Hb; [|discriminate].
  exists b. split; [reflexivity|]. cbn in Hv. injection Hv as Hv. rewrite Hv.
  unfold strict_neq. rewrite strict_eq_refl; [reflexivity|]. now apply no_NaN_get.
Qed.

Lemma repeated_setState_emits_snapshot_only_witness :
  mutate (SetState (Literal a1_b2)) (after (SetState (Literal a1_b2)) (constructor a_and_b))
  = (Normal tt, after (SetState (Literal a1_b2)) (constructor a_and_b), [StateNext a1_b2]).
Proof.
  apply (repeated_setState_emits_snapshot_only (constructor a_and_b) a1_b2); reflexivity.
Defined.

(** X13 (a full state resynchronises the store).  Whatever happened to a
    store before, a mutation whose computed update names exactly the fields
    that have a Field Cell returns normally and leaves every Field Cell
    holding the value of its field in the new snapshot; in particular this
    repairs the store left by a call that threw during reconciliation. *)
Theorem full_update_resynchronises (m : mutation) (st : store) (u : State) :
  computed_update m st = Normal u ->
  forallb (fun k => has_own k (state st)) (own_keys u) = true ->
  forallb (fun k => has_own k u) (own_keys (state st)) = true ->
  outcome (mutate m st) = Normal tt /\ consistent (after m st).
Proof.
  intros Hu Hknown Hall. split.
  - rewrite mutate_unfold, Hu. cbn zeta. cbn [outcome fst].
    rewrite reconcile_outcome. cbn [publish state]. now rewrite Hknown.
  - intros key v Hv. rewrite (after_snapshot m st u Hu).
    unfold cell_value in Hv. rewrite (after_unfold m st u Hu) in Hv.
    assert (Hk : In key (own_keys u)).
    { apply has_own_In. rewrite forallb_forall in Hall. apply Hall.
      destruct (obj_find key _) as [b|] eqn:Hb; [|discriminate].
      apply obj_find_Some_In in Hb. now rewrite reconcile_keys in Hb. }
    rewrite (reconcile_values (published m st u) (own_keys u)
               (publish (published m st u) st) key Hknown Hk) in Hv.
    congruence.
Qed.

Lemma full_update_resynchronises_witness :
  ~ consistent broken_store /\
  outcome (mutate (SetState (Literal [("a", VNum 5)])) broken_store) = Normal tt /\
  consistent (after (SetState (Literal [("a", VNum 5)])) broken_store).
Proof.
  split.
  - intros H. specialize (H "a" (VNum 0) eq_refl). discriminate.
  - apply (full_update_resynchronises (SetState (Literal [("a", VNum 5)]))
             broken_store [("a", VNum 5)]); reflexivity.
Defined.

(** X14 ([patchState] merges).  After [patchState] with a partial state [p]
    that is a real object, on a store whose snapshot is one, the snapshot is
    a real object again; each field named by [p] has the value [p] gives it
    and every other field is as before; and the fields of the snapshot are
    those it had together with those of [p].  This holds also when the call
    throws during reconciliation. *)
Theorem patchState_merges (st : store) (arg : literal_or_fn) (p : State) :
  computed_update (PatchState arg) st = Normal p ->
  obj_wf p = true ->
  obj_wf (snapshot st) = true ->
  obj_wf (snapshot (after (PatchState arg) st)) = true /\
  (forall k,
     get_prop (snapshot (after (PatchState arg) st)) k =
     match obj_find k p with
     | Some v => v
     | None => get_prop (snapshot st) k
     end) /\
  (forall k,
     In k (own_keys (snapshot (after (PatchState arg) st))) <->
     In k (own_keys (snapshot st)) \/ In k (own_keys p)).
Proof.
  intros Hp Hwfp Hwf.
  rewrite (after_snapshot (PatchState arg) st p Hp). cbn [published].
  fold (snapshot st). split; [apply obj_wf_spread2|]. split.
  - intros k. unfold get_prop, spread2.
    rewrite obj_find_assign by (now apply keys_wf_NoDup).
    destruct (obj_find k p); [reflexivity|].
    rewrite obj_find_copy by (now apply keys_wf_NoDup). reflexivity.
  - intros k. unfold spread2. rewrite !own_keys_assign_In. cbn. tauto.
Qed.

Lemma patchState_merges_witness :
  obj_wf (snapshot (after patch_z (constructor only_a))) = true /\
  (forall k,
     get_prop (snapshot (after patch_z (constructor only_a))) k =
     match obj_find k [("z", VNum 1)] with
     | Some v => v
     | None => get_prop only_a k
     end) /\
  (forall k,
     In k (own_keys (snapshot (after patch_z (constructor only_a)))) <->
     In k (own_keys only_a) \/ In k (own_keys [("z", VNum 1)])).
Proof.
  apply (patchState_merges (constructor only_a) (Literal [("z", VNum 1)]) [("z", VNum 1)]);
    reflexivity.
Defined.

(** X15 (a repeated [patchState] notifies the snapshot stream only).  After
    [patchState(p)] with a literal [p] that is a real object, whose fields
    all have a Field Cell and none of whose values is [NaN], calling
    [patchState(p)] again returns normally, changes nothing in the store,
    and delivers the same merged snapshot again but nothing on any Field
    Cell. *)
Theorem repeated_patchState_emits_snapshot_only (st : store) (p : State) :
  live st ->
  obj_wf p = true ->
  forallb (fun k => has_own k (state st)) (own_keys p) = true ->
  no_NaN p = true ->
  mutate (PatchState (Literal p)) (after (PatchState (Literal p)) st) =
  (Normal tt, after (PatchState (Literal p)) st,
   [StateNext (snapshot (after (PatchState (Literal p)) st))]).
Proof.
  intros Hlive Hwf Hknown Hnan.
  remember (after (PatchState (Literal p)) st) as st1 eqn:E1.
  assert (Hsnap : snapshot st1 = spread2 (snapshot st) p)
    by (rewrite E1; apply (after_snapshot (PatchState (Literal p)) st p eq_refl)).
  assert (Hlive1 : live st1) by (rewrite E1; now apply live_after).
  assert (Hagain : spread2 (snapshot st1) p = snapshot st1)
    by (rewrite Hsnap; now apply spread2_twice).
  rewrite mutate_unfold. cbn [computed_update published]. cbn zeta.
  fold (snapshot st1). rewrite Hagain, publish_same.
  rewrite publish_events_live by assumption.
  rewrite reconcile_fixpoint; [reflexivity|].
  intros k Hk.
  pose proof (reconcile_values (spread2 (snapshot st) p) (own_keys p)
                (publish (spread2 (snapshot st) p) st) k Hknown Hk) as Hv.
  assert (Hst1 : st1 = store_of (reconcile (spread2 (snapshot st) p) (own_keys p)
                                   (publish (spread2 (snapshot st) p) st)))
    by (rewrite E1; apply (after_unfold (PatchState (Literal p)) st p eq_refl)).
  rewrite <- Hst1 in Hv.
  destruct (obj_find k (state st1)) as [b|] eqn:Hb; [|discriminate].
  exists b. split; [reflexivity|]. cbn in Hv. injection Hv as Hv. rewrite Hv, Hsnap.
  unfold strict_neq. rewrite strict_eq_refl; [reflexivity|].
  unfold get_prop, spread2. rewrite obj_find_assign by (now apply keys_wf_NoDup).
  apply has_own_In in Hk. unfold has_own in Hk.
  destruct (obj_find k p) as [v|] eqn:Ev; [|discriminate].
  pose proof (no_NaN_get p k Hnan) as Hn. unfold get_prop in Hn. now rewrite Ev in Hn.
Qed.

Lemma repeated_patchState_emits_snapshot_only_witness :
  mutate (PatchState (Literal [("b", VNum 2)]))
    (after (PatchState (Literal [("b", VNum 2)])) (constructor a_and_b))
  = (Normal tt, after (PatchState (Literal [("b", VNum 2)])) (constructor a_and_b),
     [StateNext [("a", VNum 0); ("b", VNum 2)]]).
Proof.
  apply (repeated_patchState_emits_snapshot_only (constructor a_and_b) [("b", VNum 2)]);
    reflexivity.
Defined.


End MoreProperties.
